(** * gameAI.py: the snake's decision engine

    A shallow embedding of the search ([find_path_astar]), the one-step
    fallback ([get_safe_direction]) and the tick-level orchestration
    ([update_ai], [update_game]) of [src/gameAI.py], with the properties of
    the specification stated and settled against it.

    Python integers are unbounded, so coordinates and costs are [Z].
    [Node] objects are mutable and shared by reference (the open list and
    the [parent] links point at the same objects), so the objects live in
    an arena [nodes : list Node] and a reference is an index into it.
    [closed_set] is a Python [set] of tuples: a [gset (Z * Z)]. *)

From Stdlib Require Import ZArith Lia.
From stdpp Require Import base tactics option list list_numbers gmap sets fin_sets.

Local Open Scope Z_scope.
Set Warnings "-clear-no-such-hyp".  (* emitted by set_solver and naive_solver *)

(** ** Constants *)

Abbreviation Cell := (Z * Z)%type.

Definition WINDOW_WIDTH : Z := 800.
Definition WINDOW_HEIGHT : Z := 600.
Definition GRID_SIZE : Z := 20.
Definition GRID_WIDTH : Z := WINDOW_WIDTH `div` GRID_SIZE.
Definition GRID_HEIGHT : Z := WINDOW_HEIGHT `div` GRID_SIZE.

Definition UP : Cell := (0, -1).
Definition DOWN : Cell := (0, 1).
Definition LEFT : Cell := (-1, 0).
Definition RIGHT : Cell := (1, 0).
Definition DIRECTIONS : list Cell := [UP; DOWN; LEFT; RIGHT].

(** ** class Node *)

Record Node : Type := mkNode {
  node_x : Z;
  node_y : Z;
  node_g : Z;
  node_h : Z;
  node_f : Z;
  node_parent : option nat
}.

(** [Node.__init__]: [self.f = g + h]. *)
Definition Node_init (x y g h : Z) (parent : option nat) : Node :=
  mkNode x y g h (g + h) parent.

(** [Node.__lt__]: the only comparison the heap uses. ([Node.__eq__] is
    never called: the search compares [x] and [y] field by field, tests
    [existing is None] by identity and [temp.parent] by truth value.) *)
Definition Node_lt (self other : Node) : bool :=
  bool_decide (node_f self < node_f other).

Definition node_pos (n : Node) : Cell := (node_x n, node_y n).

Global Instance Node_inhabited : Inhabited Node :=
  populate (mkNode 0 0 0 0 0 None).

(** ** heapq

    [heapq] belongs to the Python standard library, not to the repository.
    It is modelled after CPython's implementation: [heappush] appends and
    runs [siftdown]; [heappop] removes the last element, puts it at the
    root and runs [siftup], which walks the smaller child up to a leaf
    (the right child when the left one is not strictly smaller) and then
    sifts the moved element back down towards the root. Elements are only
    compared with [lt] (Python's [<]); equal keys are never reordered by
    anything but these moves. The loops move elements by exchanging two
    positions, as the C accelerator does. *)

Section heapq.
Context {A : Type} (lt : A → A → bool).

Definition swap (heap : list A) (i j : nat) : list A :=
  match heap !! i, heap !! j with
  | Some a, Some b => <[i := b]> (<[j := a]> heap)
  | _, _ => heap
  end.

(** [while pos > startpos]: [pos] strictly decreases, so [pos] itself is
    enough fuel. *)
Fixpoint siftdown (fuel : nat) (heap : list A) (startpos pos : nat) : list A :=
  match fuel with
  | O => heap
  | S fuel =>
      if decide (startpos < pos)%nat then
        let parentpos := ((pos - 1) `div` 2)%nat in
        match heap !! pos, heap !! parentpos with
        | Some newitem, Some parent =>
            if lt newitem parent
            then siftdown fuel (swap heap pos parentpos) startpos parentpos
            else heap
        | _, _ => heap
        end
      else heap
  end.

(** [while childpos < endpos]: [pos] strictly increases below [endpos],
    so [endpos] is enough fuel. Returns the heap and the leaf reached. *)
Fixpoint siftup_loop (fuel : nat) (heap : list A) (pos : nat) : list A * nat :=
  match fuel with
  | O => (heap, pos)
  | S fuel =>
      let endpos := length heap in
      let childpos := (2 * pos + 1)%nat in
      if decide (childpos < endpos)%nat then
        let rightpos := (childpos + 1)%nat in
        let childpos :=
          match heap !! childpos, heap !! rightpos with
          | Some l, Some r => if lt l r then childpos else rightpos
          | _, _ => childpos
          end in
        siftup_loop fuel (swap heap pos childpos) childpos
      else (heap, pos)
  end.

Definition siftup (heap : list A) (pos : nat) : list A :=
  let '(heap', leaf) := siftup_loop (length heap) heap pos in
  siftdown leaf heap' pos leaf.

Definition heappush (heap : list A) (item : A) : list A :=
  let heap := heap ++ [item] in
  siftdown (length heap - 1) heap 0 (length heap - 1).

(** [None] is Python's [IndexError] on an empty heap. *)
Definition heappop (heap : list A) : option (A * list A) :=
  match last heap with
  | None => None
  | Some lastelt =>
      match removelast heap with
      | [] => Some (lastelt, [])
      | returnitem :: rest => Some (returnitem, siftup (lastelt :: rest) 0)
      end
  end.
End heapq.

(** ** AISnakeGame: the search *)

(** [heuristic]: Manhattan distance. *)
Definition heuristic (a b : Cell) : Z :=
  Z.abs (a.1 - b.1) + Z.abs (a.2 - b.2).

(** [get_neighbors]: the [for dx, dy in DIRECTIONS] loop, appending the
    cells that are in bounds and not in [self.snake[:-1]]. *)
Definition get_neighbors (snake : list Cell) (pos : Cell) : list Cell :=
  let '(x, y) := pos in
  foldl (λ neighbors (d : Cell),
           let '(dx, dy) := d in
           let new_x := x + dx in
           let new_y := y + dy in
           if decide (0 ≤ new_x < GRID_WIDTH ∧ 0 ≤ new_y < GRID_HEIGHT) then
             if decide ((new_x, new_y) ∉ removelast snake)
             then neighbors ++ [(new_x, new_y)]
             else neighbors
           else neighbors)
        [] DIRECTIONS.

(** The local state of one [find_path_astar] call. *)
Record SearchState : Type := mkSearch {
  nodes : list Node;
  open_set : list nat;
  closed_set : gset Cell
}.

(** References in [open_set] are compared through the objects they point
    at, as they are at the time of the comparison. *)
Definition ref_lt (nodes : list Node) (i j : nat) : bool :=
  Node_lt (nodes !!! i) (nodes !!! j).

(** [for node in open_set: if node.x == neighbor.x and node.y == neighbor.y:
    existing = node; break] *)
Definition find_existing (nodes : list Node) (open_set : list nat)
    (neighbor_pos : Cell) : option nat :=
  snd <$> list_find (λ r, node_pos (nodes !!! r) = neighbor_pos) open_set.

(** The body of [for neighbor_pos in self.get_neighbors(...)]. *)
Definition visit_neighbor (goal : Cell) (current : nat)
    (st : SearchState) (neighbor_pos : Cell) : SearchState :=
  if decide (neighbor_pos ∈ closed_set st) then st
  else
    let tentative_g := node_g (nodes st !!! current) + 1 in
    let neighbor :=
      Node_init neighbor_pos.1 neighbor_pos.2 tentative_g
                (heuristic neighbor_pos goal) (Some current) in
    match find_existing (nodes st) (open_set st) neighbor_pos with
    | None =>
        let r := length (nodes st) in
        let nodes' := nodes st ++ [neighbor] in
        mkSearch nodes' (heappush (ref_lt nodes') (open_set st) r) (closed_set st)
    | Some existing =>
        let e := nodes st !!! existing in
        if decide (tentative_g < node_g e) then
          let e' := mkNode (node_x e) (node_y e) tentative_g (node_h e)
                           (tentative_g + node_h e) (Some current) in
          mkSearch (<[existing := e']> (nodes st)) (open_set st) (closed_set st)
        else st
    end.

(** [while temp.parent: path.append((temp.x, temp.y)); temp = temp.parent].
    [None] when the fuel runs out (a cycle of parents would loop for ever). *)
Fixpoint reconstruct_loop (fuel : nat) (nodes : list Node) (temp : nat)
    (path : list Cell) : option (list Cell) :=
  match fuel with
  | O => None
  | S fuel =>
      let t := nodes !!! temp in
      match node_parent t with
      | None => Some path
      | Some p => reconstruct_loop fuel nodes p (path ++ [node_pos t])
      end
  end.

(** [return path[::-1]] *)
Definition reconstruct_path (nodes : list Node) (current : nat) : option (list Cell) :=
  reverse <$> reconstruct_loop (length nodes) nodes current [].

(** One turn of [while open_set]: either the call returns ([inl]) or the
    loop goes round again ([inr]). *)
Definition astar_step (snake : list Cell) (goal : Cell) (st : SearchState)
    : option (list Cell + SearchState) :=
  match open_set st with
  | [] => Some (inl [])
  | _ =>
      '(current, open') ← heappop (ref_lt (nodes st)) (open_set st);
      let c := nodes st !!! current in
      if decide (node_pos c = goal) then
        inl <$> reconstruct_path (nodes st) current
      else
        let st1 := mkSearch (nodes st) open' ({[node_pos c]} ∪ closed_set st) in
        Some (inr (foldl (visit_neighbor goal current) st1
                         (get_neighbors snake (node_pos c))))
  end.

(** The loop, with the number of times it popped a node. *)
Fixpoint astar_loop (fuel : nat) (snake : list Cell) (goal : Cell)
    (st : SearchState) : option (list Cell * nat) :=
  match fuel with
  | O => None
  | S fuel =>
      let popped := if open_set st is [] then 0%nat else 1%nat in
      match astar_step snake goal st with
      | None => None
      | Some (inl path) => Some (path, popped)
      | Some (inr st') =>
          '(path, pops) ← astar_loop fuel snake goal st';
          Some (path, (popped + pops)%nat)
      end
  end.

Definition initial_search (start goal : Cell) : SearchState :=
  let start_node := Node_init start.1 start.2 0 (heuristic start goal) None in
  mkSearch [start_node] (heappush (ref_lt [start_node]) [] 0%nat) ∅.

Definition search_fuel : nat := S (S (Z.to_nat (GRID_WIDTH * GRID_HEIGHT))).

Definition astar_run (snake : list Cell) (start goal : Cell) : option (list Cell * nat) :=
  astar_loop search_fuel snake goal (initial_search start goal).

(** [find_path_astar]; [None] would be a call that does not return. *)
Definition find_path_astar (snake : list Cell) (start goal : Cell) : option (list Cell) :=
  fst <$> astar_run snake start goal.

Arguments search_fuel : simpl never.
Arguments astar_run : simpl never.
Arguments find_path_astar : simpl never.

(** The states at the head of the loop, one per turn, in order. *)
Fixpoint astar_states (fuel : nat) (snake : list Cell) (goal : Cell)
    (st : SearchState) : list SearchState :=
  match fuel with
  | O => []
  | S fuel =>
      st :: match astar_step snake goal st with
            | Some (inr st') => astar_states fuel snake goal st'
            | _ => []
            end
  end.

(** ** AISnakeGame: the fallback and the tick *)

Record Game : Type := mkGame {
  self_snake : list Cell;
  self_direction : Cell;
  self_food : Cell;
  self_score : Z;
  self_food_eaten : Z;
  self_current_path : list Cell;
  self_path_index : nat;
  self_ai_running : bool
}.

(** [random.choice(seq)] returns [seq[k]] for a drawn [k] below [len(seq)];
    the draw is the input [r], taken modulo the length. *)
Definition random_choice {A : Type} (r : nat) (seq : list A) : option A :=
  seq !! (r `mod` length seq)%nat.

(** The list [safe_directions] built by [get_safe_direction]. *)
Definition safe_directions (snake : list Cell) (head : Cell) : list Cell :=
  foldl (λ safe (direction : Cell),
           let new_x := head.1 + direction.1 in
           let new_y := head.2 + direction.2 in
           if decide (0 ≤ new_x < GRID_WIDTH ∧ 0 ≤ new_y < GRID_HEIGHT
                      ∧ (new_x, new_y) ∉ snake)
           then safe ++ [direction]
           else safe)
        [] DIRECTIONS.

(** [get_safe_direction]; [None] is the [IndexError] of [self.snake[0]] on
    an empty snake. *)
Definition get_safe_direction (r : nat) (self : Game) : option Cell :=
  head ← self_snake self !! 0%nat;
  match safe_directions (self_snake self) head with
  | [] => Some (self_direction self)
  | safe => random_choice r safe
  end.

(** [update_ai] *)
Definition update_ai (r : nat) (self : Game) : option Game :=
  head ← self_snake self !! 0%nat;
  path ← find_path_astar (self_snake self) head (self_food self);
  let self := mkGame (self_snake self) (self_direction self) (self_food self)
                     (self_score self) (self_food_eaten self) path 0
                     (self_ai_running self) in
  match path with
  | [] =>
      d ← get_safe_direction r self;
      Some (mkGame (self_snake self) d (self_food self) (self_score self)
                   (self_food_eaten self) path 0 (self_ai_running self))
  | _ =>
      if decide (self_path_index self < length path)%nat then
        next_pos ← path !! self_path_index self;
        let dx := next_pos.1 - head.1 in
        let dy := next_pos.2 - head.2 in
        Some (mkGame (self_snake self) (dx, dy) (self_food self) (self_score self)
                     (self_food_eaten self) path (self_path_index self + 1)
                     (self_ai_running self))
      else Some self
  end.

(** [generate_food]: the first draw that is not on the snake; [draws] are
    the successive results of the two [random.randint] calls, and [None]
    means that all of them were rejected. *)
Fixpoint generate_food (draws : list Cell) (snake : list Cell) : option Cell :=
  match draws with
  | [] => None
  | food_pos :: draws =>
      if decide (food_pos ∉ snake) then Some food_pos
      else generate_food draws snake
  end.

(** [reset_game] *)
Definition reset_game (draws : list Cell) (ai_running : bool) : option Game :=
  let snake := [(GRID_WIDTH `div` 2, GRID_HEIGHT `div` 2)] in
  food ← generate_food draws snake;
  Some (mkGame snake RIGHT food 0 0 [] 0 ai_running).

(** [game_over] *)
Definition game_over (self : Game) : Game :=
  mkGame (self_snake self) (self_direction self) (self_food self) (self_score self)
         (self_food_eaten self) (self_current_path self) (self_path_index self) false.

(** [update_game] *)
Definition update_game (r : nat) (draws : list Cell) (self : Game) : option Game :=
  if negb (self_ai_running self) then Some self
  else
    self ← update_ai r self;
    head ← self_snake self !! 0%nat;
    let new_head := (head.1 + (self_direction self).1,
                     head.2 + (self_direction self).2) in
    if decide (new_head.1 < 0 ∨ new_head.1 >= GRID_WIDTH ∨
               new_head.2 < 0 ∨ new_head.2 >= GRID_HEIGHT ∨
               new_head ∈ self_snake self)
    then Some (game_over self)
    else
      let snake := new_head :: self_snake self in
      if decide (new_head = self_food self) then
        food ← generate_food draws snake;
        Some (mkGame snake (self_direction self) food (self_score self + 10)
                     (self_food_eaten self + 1) (self_current_path self)
                     (self_path_index self) (self_ai_running self))
      else
        Some (mkGame (removelast snake) (self_direction self) (self_food self)
                     (self_score self) (self_food_eaten self)
                     (self_current_path self) (self_path_index self)
                     (self_ai_running self)).

(** What the shell does between two frames, as far as the engine sees it:
    SPACE toggles the AI, R resets the game, otherwise a tick. *)
Inductive Frame : Type :=
  | KeySpace
  | KeyR (draws : list Cell)
  | Tick (r : nat) (draws : list Cell).

Definition frame (ev : Frame) (self : Game) : option Game :=
  match ev with
  | KeySpace =>
      Some (mkGame (self_snake self) (self_direction self) (self_food self)
                   (self_score self) (self_food_eaten self) (self_current_path self)
                   (self_path_index self) (negb (self_ai_running self)))
  | KeyR draws => reset_game draws false
  | Tick r draws => update_game r draws self
  end.

(** The games the program can be in: after [__init__] and any frames. *)
Inductive game_state : Game → Prop :=
  | game_init draws self :
      reset_game draws false = Some self → game_state self
  | game_frame ev self self' :
      game_state self → frame ev self = Some self' → game_state self'.

(** A run of frames. *)
Fixpoint run_frames (evs : list Frame) (self : Game) : option Game :=
  match evs with
  | [] => Some self
  | ev :: evs => self' ← frame ev self; run_frames evs self'
  end.

(** ** Vocabulary of the specification *)

Definition in_bounds (c : Cell) : Prop :=
  0 ≤ c.1 < GRID_WIDTH ∧ 0 ≤ c.2 < GRID_HEIGHT.

(** The cells the search treats as occupied: the body without its tail. *)
Definition occupied (snake : list Cell) (c : Cell) : Prop :=
  c ∈ removelast snake.

Definition free_cell (snake : list Cell) (c : Cell) : Prop :=
  in_bounds c ∧ ¬ occupied snake c.

(** 4-adjacency: the cells differ by one of the four unit vectors. *)
Definition adjacent (a b : Cell) : Prop :=
  Z.abs (b.1 - a.1) + Z.abs (b.2 - a.2) = 1.

(** A sequence of steps from [from]: each cell is adjacent to the one
    before it and free. The starting cell itself is not tested. *)
Fixpoint valid_path (snake : list Cell) (from : Cell) (path : list Cell) : Prop :=
  match path with
  | [] => True
  | c :: path => adjacent from c ∧ free_cell snake c ∧ valid_path snake c path
  end.

(** [path] leads from [start] to [goal]. *)
Definition leads_to (snake : list Cell) (start goal : Cell) (path : list Cell) : Prop :=
  valid_path snake start path ∧ last (start :: path) = Some goal.

Definition reachable (snake : list Cell) (start goal : Cell) : Prop :=
  ∃ path, leads_to snake start goal path.

Global Instance in_bounds_dec c : Decision (in_bounds c).
Proof. unfold in_bounds. apply _. Defined.

Global Instance occupied_dec snake c : Decision (occupied snake c).
Proof. unfold occupied. apply _. Defined.

Global Instance free_cell_dec snake c : Decision (free_cell snake c).
Proof. unfold free_cell. apply _. Defined.

Global Instance adjacent_dec a b : Decision (adjacent a b).
Proof. unfold adjacent. apply _. Defined.

Global Instance valid_path_dec snake from path : Decision (valid_path snake from path).
Proof. revert from. induction path; intros from; simpl; apply _. Defined.

Global Instance leads_to_dec snake start goal path :
  Decision (leads_to snake start goal path).
Proof. unfold leads_to. apply _. Defined.

(** The popped node has a minimal [f] among the entries of the open set. *)
Definition pop_is_minimal (st : SearchState) : Prop :=
  match heappop (ref_lt (nodes st)) (open_set st) with
  | Some (current, _) =>
      Forall (λ r, node_f (nodes st !!! current) ≤ node_f (nodes st !!! r))
             (open_set st)
  | None => True
  end.

Global Instance pop_is_minimal_dec st : Decision (pop_is_minimal st).
Proof. unfold pop_is_minimal. destruct (heappop _ _) as [[? ?]|]; apply _. Defined.

(** ** Invariants of the search (used in the proofs) *)

Definition shift (pos d : Cell) : Cell := (pos.1 + d.1, pos.2 + d.2).

Definition cell_of (ns : list Node) (r : nat) : Cell := node_pos (ns !!! r).

(** What holds of every object of the arena: its [g] counts the links up
    to the start node, and its parent, if any, has left the open list
    for good and is the cell it was reached from. *)
Record node_ok (snake : list Cell) (start : Cell)
    (ns : list Node) (op : list nat) (n : Node) : Prop := {
  ok_g_nonneg : 0 ≤ node_g n;
  ok_g_bound : node_g n < Z.of_nat (length ns);
  ok_parent :
    match node_parent n with
    | None => node_g n = 0 ∧ node_pos n = start
    | Some p =>
        (p ∉ op) ∧
        (∃ pn, ns !! p = Some pn ∧ node_g n = node_g pn + 1 ∧
               node_pos n ∈ get_neighbors snake (node_pos pn))
    end
}.
Arguments ok_g_nonneg {_ _ _ _ _} _.
Arguments ok_g_bound {_ _ _ _ _} _.
Arguments ok_parent {_ _ _ _ _} _.

Record search_inv (snake : list Cell) (start : Cell) (st : SearchState) : Prop := {
  inv_open_valid : ∀ r, r ∈ open_set st → (r < length (nodes st))%nat;
  inv_open_NoDup : NoDup (cell_of (nodes st) <$> open_set st);
  inv_open_closed : ∀ r, r ∈ open_set st → cell_of (nodes st) r ∉ closed_set st;
  inv_nodes : ∀ r n, nodes st !! r = Some n →
                     node_ok snake start (nodes st) (open_set st) n;
  inv_closed : ∀ c, c ∈ closed_set st → c = start ∨ in_bounds c
}.
Arguments inv_open_valid {_ _ _} _.
Arguments inv_open_NoDup {_ _ _} _.
Arguments inv_open_closed {_ _ _} _.
Arguments inv_nodes {_ _ _} _.
Arguments inv_closed {_ _ _} _.

(** While the neighbours of [current] are visited: [current] has been
    popped, its object is [c]. *)
Record expanding (snake : list Cell) (start : Cell)
    (current : nat) (c : Node) (st : SearchState) : Prop := {
  exp_inv : search_inv snake start st;
  exp_current : nodes st !! current = Some c;
  exp_not_open : current ∉ open_set st
}.
Arguments exp_inv {_ _ _ _ _} _.
Arguments exp_current {_ _ _ _ _} _.
Arguments exp_not_open {_ _ _ _ _} _.

(** The cells of the grid, and the cells a search can ever close. *)
Definition grid_cells : list Cell :=
  (λ i, (i `mod` GRID_WIDTH, i `div` GRID_WIDTH)) <$> seqZ 0 (GRID_WIDTH * GRID_HEIGHT).

Definition universe (start : Cell) : gset Cell :=
  {[start]} ∪ list_to_set grid_cells.
Arguments grid_cells : simpl never.
Arguments universe : simpl never.

(** The cells not closed yet: what is left for the loop to pop. *)
Definition remaining (start : Cell) (st : SearchState) : nat :=
  size (universe start ∖ closed_set st).

(** ** The body and the game, well formed *)

(** Consecutive segments of the body touch. *)
Fixpoint contiguous (snake : list Cell) : Prop :=
  match snake with
  | [] => True
  | a :: rest =>
      match rest with
      | [] => True
      | b :: _ => adjacent a b ∧ contiguous rest
      end
  end.

(** What [update_game] keeps true of the game. *)
Record game_ok (self : Game) : Prop := {
  ok_snake_nonempty : self_snake self ≠ [];
  ok_snake_NoDup : NoDup (self_snake self);
  ok_snake_in_bounds : Forall in_bounds (self_snake self);
  ok_snake_contiguous : contiguous (self_snake self);
  ok_food : self_food self ∉ self_snake self;
  ok_score : self_score self = 10 * self_food_eaten self;
  ok_length : Z.of_nat (length (self_snake self)) = self_food_eaten self + 1
}.

(** What the loop keeps besides [search_inv], for the cells [done] whose
    neighbours have all been visited: the start is closed as soon as the
    first node is popped, the goal is never closed, every neighbour of a
    done cell is closed or open, every object is open or has its cell
    closed, no two objects share a cell, and object 0 is the start node. *)
Record frontier_inv (snake : list Cell) (start goal : Cell)
    (done : gset Cell) (st : SearchState) : Prop := {
  fr_start : start ∈ closed_set st ∨ open_set st = [0%nat];
  fr_goal : goal ∉ closed_set st;
  fr_done : ∀ c c', c ∈ done → c' ∈ get_neighbors snake c →
                    c' ∈ closed_set st ∨ c' ∈ cell_of (nodes st) <$> open_set st;
  fr_nodes : ∀ r, (r < length (nodes st))%nat →
                  r ∈ open_set st ∨ cell_of (nodes st) r ∈ closed_set st;
  fr_NoDup : NoDup (node_pos <$> nodes st);
  fr_root : ∃ n0, nodes st !! 0%nat = Some n0 ∧ node_pos n0 = start ∧
                  node_parent n0 = None
}.
Arguments fr_start {_ _ _ _ _} _.
Arguments fr_goal {_ _ _ _ _} _.
Arguments fr_done {_ _ _ _ _} _.
Arguments fr_nodes {_ _ _ _ _} _.
Arguments fr_NoDup {_ _ _ _ _} _.
Arguments fr_root {_ _ _ _ _} _.

(** ** AISnakeGame: the shell ([__init__], [handle_events], [run]) *)

(** The keys [handle_events] tells apart, and the events of
    [pygame.event.get()]. *)
Inductive Key : Type := K_SPACE | K_r | K_q | K_UP | K_DOWN | K_other.
Inductive Event : Type := QUIT | KEYDOWN (key : Key) | OTHER_EVENT.

Global Instance Key_eq_dec : EqDecision Key.
Proof. solve_decision. Defined.

Global Instance Event_eq_dec : EqDecision Event.
Proof. solve_decision. Defined.

(** The game with the two fields of the loop. *)
Record Shell : Type := mkShell {
  shell_game : Game;
  self_running : bool;
  self_game_speed : Z
}.

(** [__init__]: [reset_game()], [running = True], [ai_running = False],
    [game_speed = 10]. *)
Definition Shell_init (draws : list Cell) : option Shell :=
  game ← reset_game draws false;
  Some (mkShell game true 10).

(** The body of [for event in pygame.event.get()]; [draws] are the draws a
    reset would make. *)
Definition handle_event (sh : Shell) (ev : Event * list Cell) : option Shell :=
  let '(event, draws) := ev in
  let game := shell_game sh in
  match event with
  | QUIT => Some (mkShell game false (self_game_speed sh))
  | KEYDOWN K_SPACE =>
      Some (mkShell (mkGame (self_snake game) (self_direction game) (self_food game)
                            (self_score game) (self_food_eaten game)
                            (self_current_path game) (self_path_index game)
                            (negb (self_ai_running game)))
                    (self_running sh) (self_game_speed sh))
  | KEYDOWN K_r =>
      game' ← reset_game draws false;
      Some (mkShell game' (self_running sh) (self_game_speed sh))
  | KEYDOWN K_q => Some (mkShell game false (self_game_speed sh))
  | KEYDOWN K_UP =>
      Some (mkShell game (self_running sh) (Z.min 20 (self_game_speed sh + 1)))
  | KEYDOWN K_DOWN =>
      Some (mkShell game (self_running sh) (Z.max 1 (self_game_speed sh - 1)))
  | KEYDOWN K_other | OTHER_EVENT => Some sh
  end.

(** [handle_events] *)
Fixpoint handle_events (events : list (Event * list Cell)) (sh : Shell) : option Shell :=
  match events with
  | [] => Some sh
  | ev :: events => sh' ← handle_event sh ev; handle_events events sh'
  end.

(** What one turn of the loop of [run] receives: the pending events, the
    draw of the fallback and the draws of [generate_food]. *)
Record Turn : Type := mkTurn {
  turn_events : list (Event * list Cell);
  turn_choice : nat;
  turn_draws : list Cell
}.

(** [run]: [while self.running: self.handle_events(); self.update_game();
    ...]; drawing and the clock do not touch the state. The result is the
    state when the loop ends or the turns run out. *)
Fixpoint run (turns : list Turn) (sh : Shell) : option Shell :=
  match turns with
  | [] => Some sh
  | turn :: turns =>
      if self_running sh then
        sh1 ← handle_events (turn_events turn) sh;
        game ← update_game (turn_choice turn) (turn_draws turn) (shell_game sh1);
        run turns (mkShell game (self_running sh1) (self_game_speed sh1))
      else Some sh
  end.

(** * Properties *)

(** ** The heap only permutes its elements *)

Section heapq_facts.
Context {A : Type} (lt : A → A → bool).
Implicit Types heap : list A.

Lemma swap_Permutation heap i j : swap heap i j ≡ₚ heap.
Proof.
  unfold swap.
  destruct (heap !! i) as [a|] eqn:Hi; [|done].
  destruct (heap !! j) as [b|] eqn:Hj; [|done].
  pose proof (lookup_lt_Some _ _ _ Hi) as Hli.
  pose proof (lookup_lt_Some _ _ _ Hj) as Hlj.
  apply Permutation_inj. split; [by rewrite !length_insert|].
  exists (λ k, if decide (k = i) then j else if decide (k = j) then i else k).
  split.
  - intros k1 k2. repeat case_decide; intros; simplify_eq; done.
  - intros k. destruct (decide (k = i)) as [->|Hki].
    + rewrite list_lookup_insert_eq by (by rewrite length_insert). done.
    + rewrite list_lookup_insert_ne by done.
      destruct (decide (k = j)) as [->|Hkj].
      * by rewrite list_lookup_insert_eq.
      * by rewrite list_lookup_insert_ne.
Qed.

Lemma swap_length heap i j : length (swap heap i j) = length heap.
Proof.
  unfold swap. destruct (heap !! i); [|done]. destruct (heap !! j); [|done].
  by rewrite !length_insert.
Qed.

(** The fuel of the two loops is enough: more of it changes nothing. *)
Lemma siftdown_fuel fuel heap startpos pos :
  (pos ≤ fuel)%nat →
  siftdown lt fuel heap startpos pos = siftdown lt pos heap startpos pos.
Proof.
  revert heap pos. induction fuel as [fuel IH] using lt_wf_ind. intros heap pos Hle.
  destruct fuel as [|fuel], pos as [|pos]; cbn [siftdown]; try done; try lia.
  case_decide; [|done].
  destruct (heap !! S pos); [|done].
  destruct (heap !! _); [|done].
  destruct (lt _ _); [|done].
  assert ((S pos - 1) `div` 2 ≤ pos)%nat as Hparent.
  { apply Nat.Div0.div_le_upper_bound. lia. }
  rewrite (IH fuel) by lia. by rewrite (IH pos) by lia.
Qed.

Lemma siftup_loop_fuel fuel1 fuel2 heap pos :
  (length heap ≤ fuel1 + pos)%nat → (length heap ≤ fuel2 + pos)%nat →
  siftup_loop lt fuel1 heap pos = siftup_loop lt fuel2 heap pos.
Proof.
  revert fuel2 heap pos. induction fuel1 as [|fuel1 IH]; intros fuel2 heap pos H1 H2.
  - destruct fuel2; cbn [siftup_loop]; [done|]. case_decide; [lia|done].
  - destruct fuel2; cbn [siftup_loop].
    + case_decide; [lia|done].
    + case_decide; [|done].
      assert (∀ c, (pos < c)%nat →
                siftup_loop lt fuel1 (swap heap pos c) c
                = siftup_loop lt fuel2 (swap heap pos c) c) as Hnext.
      { intros c Hc. apply IH; rewrite swap_length; lia. }
      apply Hnext. repeat case_match; lia.
Qed.

Lemma siftdown_Permutation fuel heap startpos pos :
  siftdown lt fuel heap startpos pos ≡ₚ heap.
Proof.
  revert heap pos. induction fuel as [|fuel IH]; intros heap pos; simpl; [done|].
  case_decide; [|done].
  destruct (heap !! pos); [|done].
  destruct (heap !! _); [|done].
  destruct (lt _ _); [|done].
  by rewrite IH, swap_Permutation.
Qed.

Lemma siftup_loop_Permutation fuel heap pos :
  (siftup_loop lt fuel heap pos).1 ≡ₚ heap.
Proof.
  revert heap pos. induction fuel as [|fuel IH]; intros heap pos; simpl; [done|].
  case_decide; [|done].
  by rewrite IH, swap_Permutation.
Qed.

Lemma siftup_Permutation heap pos : siftup lt heap pos ≡ₚ heap.
Proof.
  unfold siftup.
  pose proof (siftup_loop_Permutation (length heap) heap pos) as Hloop.
  destruct (siftup_loop lt (length heap) heap pos) as [heap' leaf]; simpl in *.
  by rewrite siftdown_Permutation.
Qed.

Lemma heappush_Permutation heap item : heappush lt heap item ≡ₚ item :: heap.
Proof.
  unfold heappush. rewrite siftdown_Permutation.
  by rewrite Permutation_app_comm.
Qed.

Lemma heappop_Permutation heap item heap' :
  heappop lt heap = Some (item, heap') → heap ≡ₚ item :: heap'.
Proof.
  unfold heappop. intros Hpop.
  destruct (last heap) as [lastelt|] eqn:Hlast; [|done].
  apply last_Some in Hlast as [front ->].
  rewrite removelast_last in Hpop.
  destruct front as [|returnitem rest]; simplify_eq/=; [done|].
  rewrite siftup_Permutation. simpl. f_equiv.
  by rewrite Permutation_app_comm.
Qed.

Lemma heappop_is_Some heap : heap ≠ [] → is_Some (heappop lt heap).
Proof.
  intros Hne. unfold heappop.
  destruct (last heap) as [lastelt|] eqn:Hlast.
  - destruct (removelast heap); eauto.
  - by apply last_None in Hlast.
Qed.
End heapq_facts.

(** ** Neighbours and safe directions as filters *)

Lemma foldl_filter_snoc {B C : Type} (P : B → Prop) `{!∀ b, Decision (P b)}
    (f : B → C) (step : list C → B → list C) :
  (∀ acc b, step acc b = if decide (P b) then acc ++ [f b] else acc) →
  ∀ l acc, foldl step acc l = acc ++ (f <$> filter P l).
Proof.
  intros Hstep l. induction l as [|b l IH]; intros acc; simpl.
  - by rewrite app_nil_r.
  - rewrite IH, Hstep, filter_cons. case_decide; [|done].
    by rewrite <-app_assoc.
Qed.

Lemma get_neighbors_filter snake pos :
  get_neighbors snake pos =
  shift pos <$> filter (λ d, free_cell snake (shift pos d)) DIRECTIONS.
Proof.
  destruct pos as [x y]. unfold get_neighbors.
  erewrite (foldl_filter_snoc (λ d, free_cell snake (shift (x, y) d)) (shift (x, y)));
    [done|].
  intros acc [dx dy]. unfold free_cell, in_bounds, occupied, shift; simpl.
  repeat case_decide; tauto.
Qed.

Lemma safe_directions_filter snake head :
  safe_directions snake head =
  filter (λ d, in_bounds (shift head d) ∧ shift head d ∉ snake) DIRECTIONS.
Proof.
  unfold safe_directions.
  erewrite (foldl_filter_snoc (λ d, in_bounds (shift head d) ∧ shift head d ∉ snake) id).
  - by rewrite list_fmap_id.
  - intros acc d. unfold in_bounds, shift; simpl.
    repeat case_decide; tauto.
Qed.

Lemma elem_of_DIRECTIONS d :
  d ∈ DIRECTIONS ↔ Z.abs d.1 + Z.abs d.2 = 1.
Proof.
  unfold DIRECTIONS, UP, DOWN, LEFT, RIGHT. destruct d as [dx dy].
  rewrite !elem_of_cons, elem_of_nil. simpl. split.
  - intros [?|[?|[?|[?|[]]]]]; simplify_eq; done.
  - intros Habs.
    assert (dx = 0 ∧ dy = -1 ∨ dx = 0 ∧ dy = 1 ∨ dx = -1 ∧ dy = 0 ∨ dx = 1 ∧ dy = 0)
      as Hcases by lia.
    destruct Hcases as [[-> ->]|[[-> ->]|[[-> ->]|[-> ->]]]]; auto.
Qed.

Lemma elem_of_get_neighbors snake pos c :
  c ∈ get_neighbors snake pos ↔ adjacent pos c ∧ free_cell snake c.
Proof.
  rewrite get_neighbors_filter, list_elem_of_fmap. split.
  - intros (d & -> & [Hfree Hd%elem_of_DIRECTIONS]%list_elem_of_filter).
    split; [|done]. unfold adjacent, shift; simpl.
    by replace (pos.1 + d.1 - pos.1) with d.1 by lia;
       replace (pos.2 + d.2 - pos.2) with d.2 by lia.
  - intros [Hadj Hfree]. exists (c.1 - pos.1, c.2 - pos.2).
    assert (shift pos (c.1 - pos.1, c.2 - pos.2) = c) as Hc.
    { unfold shift; simpl. destruct c; simpl; f_equal; lia. }
    split; [done|]. apply list_elem_of_filter. rewrite Hc. split; [done|].
    by apply elem_of_DIRECTIONS.
Qed.

(** ** Paths *)

Lemma leads_to_snoc snake a c c' path :
  leads_to snake a c path → adjacent c c' → free_cell snake c' →
  leads_to snake a c' (path ++ [c']).
Proof.
  intros [Hvalid Hlast] Hadj Hfree. split.
  - revert a Hvalid Hlast. induction path as [|x path IH]; intros a Hvalid Hlast.
    + simpl in *. by simplify_eq.
    + destruct Hvalid as (? & ? & ?). simpl. split_and!; [done..|].
      by apply IH.
  - by rewrite app_comm_cons, last_snoc.
Qed.

Lemma valid_path_free snake from path :
  valid_path snake from path → Forall (free_cell snake) path.
Proof.
  revert from. induction path as [|c path IH]; intros from; simpl; [done|].
  intros (_ & ? & ?). constructor; eauto.
Qed.

(** ** The invariant of the search *)

Section search.
Context (snake : list Cell) (start goal : Cell).

Lemma node_ok_universe ns op n :
  node_ok snake start ns op n → node_pos n = start ∨ in_bounds (node_pos n).
Proof.
  intros [_ _ Hparent]. destruct (node_parent n) as [p|].
  - destruct Hparent as (_ & pn & _ & _ & [_ [? _]]%elem_of_get_neighbors). by right.
  - left. apply Hparent.
Qed.

Lemma node_ok_shrink ns op op' n :
  (∀ r, r ∈ op' → r ∈ op) → node_ok snake start ns op n → node_ok snake start ns op' n.
Proof.
  intros Hsub [? ? Hparent]. split; [done..|].
  destruct (node_parent n); [|done].
  destruct Hparent as [Hp Hpn]. split; [|done]. intros Hin. by apply Hp, Hsub.
Qed.

(** Walking the parents from a node gives the way it was reached. *)
Lemma reconstruct_loop_spec ns op :
  (∀ r n, ns !! r = Some n → node_ok snake start ns op n) →
  ∀ fuel r n path,
    ns !! r = Some n → (Z.to_nat (node_g n) < fuel)%nat →
    ∃ chain, reconstruct_loop fuel ns r path = Some (path ++ chain) ∧
             leads_to snake start (node_pos n) (reverse chain).
Proof.
  intros Hok fuel. induction fuel as [|fuel IH]; intros r n path Hr Hfuel; [lia|].
  simpl. rewrite (list_lookup_total_correct _ _ _ Hr).
  destruct (Hok _ _ Hr) as [Hg0 _ Hparent].
  destruct (node_parent n) as [p|].
  - destruct Hparent as (_ & pn & Hp & Hg & [Hadj Hfree]%elem_of_get_neighbors).
    destruct (IH p pn (path ++ [node_pos n]) Hp) as (chain & Hrec & Hlead).
    { pose proof (ok_g_nonneg (Hok _ _ Hp)). lia. }
    exists (node_pos n :: chain). split.
    + by rewrite Hrec, <-app_assoc.
    + rewrite reverse_cons. by eapply leads_to_snoc.
  - exists []. rewrite app_nil_r. split; [done|].
    destruct Hparent as [_ <-]. by split.
Qed.

Lemma reconstruct_path_spec st r :
  search_inv snake start st → (r < length (nodes st))%nat →
  ∃ path, reconstruct_path (nodes st) r = Some path ∧
          leads_to snake start (cell_of (nodes st) r) path.
Proof.
  intros Hinv Hr. apply list_lookup_lookup_total_lt in Hr as Hn.
  destruct (reconstruct_loop_spec (nodes st) (open_set st) (inv_nodes Hinv)
              (length (nodes st)) r _ [] Hn) as (chain & Hrec & Hlead).
  { pose proof (inv_nodes Hinv _ _ Hn) as [? ? _]. lia. }
  exists (reverse chain). unfold reconstruct_path. by rewrite Hrec.
Qed.

Lemma initial_search_inv : search_inv snake start (initial_search start goal).
Proof.
  unfold initial_search. split; simpl.
  - intros r ->%list_elem_of_singleton. simpl. lia.
  - apply NoDup_singleton.
  - intros r _. apply not_elem_of_empty.
  - intros [|r] n Hn; simplify_eq/=.
    split; simpl; [lia..|]. by destruct start.
  - intros c Hc. by apply not_elem_of_empty in Hc.
Qed.

(** *** One neighbour *)

Lemma cell_of_app ns n r :
  (r < length ns)%nat → cell_of (ns ++ [n]) r = cell_of ns r.
Proof. intros Hr. unfold cell_of. by rewrite lookup_total_app_l. Qed.

Lemma cell_of_insert ns e n' r :
  node_pos n' = cell_of ns e → cell_of (<[e:=n']> ns) r = cell_of ns r.
Proof.
  intros Hpos. unfold cell_of in *.
  destruct (decide (e < length ns)%nat) as [He|He].
  - destruct (decide (r = e)) as [->|Hne].
    + by rewrite list_lookup_total_insert_eq.
    + by rewrite list_lookup_total_insert_ne.
  - rewrite list_insert_ge; [done|lia].
Qed.

Lemma find_existing_Some ns op c e :
  find_existing ns op c = Some e → e ∈ op ∧ cell_of ns e = c.
Proof.
  unfold find_existing. intros ([i e'] & Hfind & ->)%fmap_Some.
  apply list_find_Some in Hfind as (Hi & He & _). split; [|done].
  by eapply list_elem_of_lookup_2.
Qed.

Lemma find_existing_None ns op c :
  find_existing ns op c = None → c ∉ cell_of ns <$> op.
Proof.
  unfold find_existing. intros Hfind%fmap_None.
  apply list_find_None in Hfind. rewrite Forall_forall in Hfind.
  intros (r & -> & Hr)%list_elem_of_fmap. by eapply Hfind.
Qed.

Lemma elem_of_heappush {A} (lt : A → A → bool) heap item x :
  x ∈ heappush lt heap item ↔ x = item ∨ x ∈ heap.
Proof. by rewrite heappush_Permutation, elem_of_cons. Qed.

Lemma node_ok_transfer ns op ns' op' n :
  node_ok snake start ns op n →
  (length ns ≤ length ns')%nat →
  (∀ p pn, p ∉ op → ns !! p = Some pn → (p ∉ op') ∧ ns' !! p = Some pn) →
  node_ok snake start ns' op' n.
Proof.
  intros [Hg0 Hgb Hparent] Hlen Hkeep. split; [done|lia|].
  destruct (node_parent n) as [p|]; [|done].
  destruct Hparent as (Hp & pn & Hpn & Hg & Hnb).
  destruct (Hkeep _ _ Hp Hpn) as [Hp' Hpn']. eauto.
Qed.

Lemma visit_neighbor_update current c st pos e :
  expanding snake start current c st →
  pos ∈ get_neighbors snake (node_pos c) →
  e ∈ open_set st → cell_of (nodes st) e = pos →
  node_g c + 1 < node_g (nodes st !!! e) →
  let e' := mkNode (node_x (nodes st !!! e)) (node_y (nodes st !!! e))
                   (node_g c + 1) (node_h (nodes st !!! e))
                   (node_g c + 1 + node_h (nodes st !!! e)) (Some current) in
  expanding snake start current c (mkSearch (<[e:=e']> (nodes st)) (open_set st) (closed_set st)).
Proof.
  intros [Hinv Hcur Hnot] Hpos He Hcell Hless e'.
  assert (current ≠ e) as Hne by (by intros ->).
  pose proof (inv_open_valid Hinv _ He) as Hlt.
  pose proof (list_lookup_lookup_total_lt _ _ Hlt) as Hold.
  assert (∀ r, cell_of (<[e:=e']> (nodes st)) r = cell_of (nodes st) r) as Hsame.
  { intros r. by apply cell_of_insert. }
  split; [split|..]; simpl.
  - intros r Hr. rewrite length_insert. by apply Hinv.
  - rewrite (list_fmap_ext _ (cell_of (nodes st))); [apply Hinv|done].
  - intros r Hr. rewrite Hsame. by apply Hinv.
  - intros r n Hn. destruct (decide (r = e)) as [->|Hre].
    + rewrite list_lookup_insert_eq in Hn by done. simplify_eq.
      pose proof (inv_nodes Hinv _ _ Hcur) as [Hc0 _ _].
      pose proof (inv_nodes Hinv _ _ Hold) as [_ Hb _].
      split; simpl; [lia|rewrite length_insert; lia|].
      split; [done|]. exists c. by rewrite list_lookup_insert_ne.
    + rewrite list_lookup_insert_ne in Hn by done.
      eapply node_ok_transfer; [by eapply Hinv|by rewrite length_insert|].
      intros p pn Hp Hpn. split; [done|].
      rewrite list_lookup_insert_ne; [done|]. by intros ->.
  - apply Hinv.
  - by rewrite list_lookup_insert_ne.
  - done.
Qed.

Lemma visit_neighbor_push current c st pos :
  expanding snake start current c st →
  pos ∈ get_neighbors snake (node_pos c) →
  pos ∉ closed_set st →
  pos ∉ cell_of (nodes st) <$> open_set st →
  let neighbor := Node_init pos.1 pos.2 (node_g c + 1) (heuristic pos goal)
                            (Some current) in
  let nodes' := nodes st ++ [neighbor] in
  expanding snake start current c
    (mkSearch nodes' (heappush (ref_lt nodes') (open_set st) (length (nodes st)))
              (closed_set st)).
Proof.
  intros [Hinv Hcur Hnot] Hpos Hclosed Hfresh neighbor nodes'.
  pose proof (lookup_lt_Some _ _ _ Hcur) as Hclt.
  assert (cell_of nodes' (length (nodes st)) = pos) as Hnew.
  { unfold cell_of, nodes'. rewrite lookup_total_app_r by done.
    rewrite Nat.sub_diag. simpl. by destruct pos. }
  assert (∀ r, r ∈ open_set st → cell_of nodes' r = cell_of (nodes st) r) as Hsame.
  { intros r Hr. apply cell_of_app. by apply Hinv. }
  split; [split|..]; simpl.
  - intros r [->|Hr]%elem_of_heappush; unfold nodes'; rewrite length_app; simpl.
    + lia.
    + apply Hinv in Hr. lia.
  - rewrite heappush_Permutation, fmap_cons, Hnew.
    rewrite (list_fmap_ext _ (cell_of (nodes st))).
    + apply NoDup_cons. split; [done|apply Hinv].
    + intros i r Hr. apply Hsame. by eapply list_elem_of_lookup_2.
  - intros r [->|Hr]%elem_of_heappush.
    + by rewrite Hnew.
    + rewrite Hsame by done. by apply Hinv.
  - assert (∀ p pn, p ∉ open_set st → nodes st !! p = Some pn →
              (p ∉ heappush (ref_lt nodes') (open_set st) (length (nodes st))) ∧
              nodes' !! p = Some pn) as Hkeep.
    { intros p pn Hp Hpn. pose proof (lookup_lt_Some _ _ _ Hpn). split.
      - intros [->|?]%elem_of_heappush; [lia|done].
      - by apply lookup_app_l_Some. }
    intros r n [Hn|[Hr Hn]]%lookup_app_Some.
    + eapply node_ok_transfer; [by eapply Hinv| |done].
      unfold nodes'. rewrite length_app. lia.
    + destruct (r - length (nodes st))%nat; simplify_eq/=.
      pose proof (inv_nodes Hinv _ _ Hcur) as [Hc0 Hcb _].
      split; simpl.
      * lia.
      * unfold nodes'. rewrite length_app. simpl. lia.
      * destruct (Hkeep _ _ Hnot Hcur) as [? ?].
        split; [done|]. exists c. split_and!; [done..|]. by destruct pos.
  - apply Hinv.
  - by apply lookup_app_l_Some.
  - intros [->|?]%elem_of_heappush; [lia|done].
Qed.

Lemma visit_neighbor_spec current c st pos :
  expanding snake start current c st →
  pos ∈ get_neighbors snake (node_pos c) →
  expanding snake start current c (visit_neighbor goal current st pos) ∧
  closed_set (visit_neighbor goal current st pos) = closed_set st.
Proof.
  intros Hexp Hpos. unfold visit_neighbor.
  case_decide as Hclosed; [done|].
  rewrite (list_lookup_total_correct _ _ _ (exp_current Hexp)).
  destruct (find_existing _ _ _) as [e|] eqn:Hfind.
  - apply find_existing_Some in Hfind as [He Hcell].
    case_decide; [|done]. split; [|done].
    by apply (visit_neighbor_update current c st pos).
  - apply find_existing_None in Hfind. split; [|done].
    by apply (visit_neighbor_push current c st pos).
Qed.

Lemma visit_neighbors_spec current c poss st :
  expanding snake start current c st →
  (∀ pos, pos ∈ poss → pos ∈ get_neighbors snake (node_pos c)) →
  expanding snake start current c (foldl (visit_neighbor goal current) st poss) ∧
  closed_set (foldl (visit_neighbor goal current) st poss) = closed_set st.
Proof.
  revert st. induction poss as [|pos poss IH]; intros st Hexp Hposs; simpl; [done|].
  destruct (visit_neighbor_spec current c st pos) as [Hexp' Hcl'];
    [done|apply Hposs; left|].
  destruct (IH _ Hexp') as [? Hcl''].
  { intros ? ?. apply Hposs. by right. }
  split; [done|]. by rewrite Hcl''.
Qed.

(** *** One turn of the loop *)

Lemma pop_spec st current open' :
  search_inv snake start st →
  heappop (ref_lt (nodes st)) (open_set st) = Some (current, open') →
  let c := nodes st !!! current in
  expanding snake start current c
    (mkSearch (nodes st) open' ({[node_pos c]} ∪ closed_set st)) ∧
  (current < length (nodes st))%nat ∧
  node_pos c ∈ universe start ∖ closed_set st.
Proof.
  intros Hinv Hperm%heappop_Permutation c.
  assert (∀ r, r ∈ open' → r ∈ open_set st) as Hsub.
  { intros r Hr. rewrite Hperm. by right. }
  assert (current ∈ open_set st) as Hin by (rewrite Hperm; left).
  pose proof (inv_open_valid Hinv _ Hin) as Hlt.
  pose proof (list_lookup_lookup_total_lt _ _ Hlt) as Hc. fold c in Hc.
  pose proof (inv_open_NoDup Hinv) as Hnd.
  rewrite Hperm, fmap_cons in Hnd. apply NoDup_cons in Hnd as [Hfresh Hnd].
  change (cell_of (nodes st) current) with (node_pos c) in Hfresh.
  assert (node_pos c ∉ closed_set st) as Hnc by (by apply (inv_open_closed Hinv)).
  assert (node_pos c = start ∨ in_bounds (node_pos c)) as Huniv.
  { eapply node_ok_universe. by eapply (inv_nodes Hinv). }
  split_and!; [split; [split|..]; simpl|done|].
  - intros r Hr. by apply Hinv, Hsub.
  - done.
  - intros r Hr. apply not_elem_of_union. split.
    + intros Heq%elem_of_singleton. apply Hfresh. rewrite <-Heq.
      by apply list_elem_of_fmap_2.
    + by apply Hinv, Hsub.
  - intros r n Hn. eapply node_ok_shrink; [done|]. by eapply Hinv.
  - intros c' [->%elem_of_singleton|Hc']%elem_of_union; [done|].
    by apply Hinv.
  - done.
  - intros Hr. apply Hfresh. by apply (list_elem_of_fmap_2 (cell_of (nodes st))) in Hr.
  - apply elem_of_difference. split; [|done].
    unfold universe. apply elem_of_union.
    destruct Huniv as [->|Hb]; [left; by apply elem_of_singleton|right].
    apply elem_of_list_to_set. unfold grid_cells.
    apply list_elem_of_fmap. destruct Hb as [[Hx0 Hx1] [Hy0 Hy1]].
    exists ((node_pos c).2 * GRID_WIDTH + (node_pos c).1). split.
    + rewrite Z.add_comm, Z_mod_plus_full, Z_div_plus_full by lia.
      rewrite Z.mod_small, Z.div_small by lia.
      destruct (node_pos c); simpl; f_equal; lia.
    + apply elem_of_seqZ. nia.
Qed.

Lemma remaining_closed st st' x :
  x ∈ universe start ∖ closed_set st →
  closed_set st' = {[x]} ∪ closed_set st →
  (remaining start st' < remaining start st)%nat.
Proof.
  unfold remaining. generalize (universe start). intros U Hx Hcl.
  rewrite Hcl. apply subset_size. set_solver.
Qed.

Lemma remaining_pos st x :
  x ∈ universe start ∖ closed_set st → (0 < remaining start st)%nat.
Proof.
  unfold remaining. generalize (universe start). intros U Hx.
  destruct (decide (size (U ∖ closed_set st) = 0%nat)) as [Hz|]; [|lia].
  apply size_empty_inv in Hz. set_solver.
Qed.

(** The step never gets stuck; it returns the empty list on an empty open
    list, a path to the goal when it pops the goal, and otherwise closes
    one more cell and keeps the invariant. *)
Lemma astar_step_spec st :
  search_inv snake start st →
  match astar_step snake goal st with
  | None => False
  | Some (inl path) =>
      (open_set st = [] ∧ path = []) ∨
      (open_set st ≠ [] ∧ leads_to snake start goal path ∧
       (0 < remaining start st)%nat)
  | Some (inr st') =>
      open_set st ≠ [] ∧ search_inv snake start st' ∧
      (remaining start st' < remaining start st)%nat
  end.
Proof.
  intros Hinv. unfold astar_step.
  destruct (open_set st) as [|r0 op0] eqn:Hopen; [by left|].
  rewrite <-Hopen.
  destruct (heappop_is_Some (ref_lt (nodes st)) (open_set st)) as [[current open'] Hpop].
  { by rewrite Hopen. }
  rewrite Hpop. simpl.
  destruct (pop_spec _ _ _ Hinv Hpop) as (Hexp & Hlt & Huniv).
  case_decide as Hgoal.
  - destruct (reconstruct_path_spec st current Hinv Hlt) as (path & -> & Hlead).
    simpl. right. split; [by rewrite Hopen|]. split.
    + unfold cell_of in Hlead. by rewrite Hgoal in Hlead.
    + by eapply remaining_pos.
  - destruct (visit_neighbors_spec _ _ (get_neighbors snake (node_pos (nodes st !!! current)))
                _ Hexp) as [Hexp' Hcl]; [done|].
    split; [by rewrite Hopen|]. split; [apply Hexp'|].
    by eapply remaining_closed.
Qed.

(** *** The loop *)

Lemma astar_loop_spec fuel st :
  search_inv snake start st →
  (remaining start st < fuel)%nat →
  ∃ path pops,
    astar_loop fuel snake goal st = Some (path, pops) ∧
    (pops ≤ remaining start st)%nat ∧
    (path = [] ∨ leads_to snake start goal path).
Proof.
  revert st. induction fuel as [|fuel IH]; intros st Hinv Hfuel; [lia|].
  pose proof (astar_step_spec st Hinv) as Hstep. simpl.
  destruct (astar_step snake goal st) as [[path|st']|]; [| |done].
  - exists path. eexists. split; [done|].
    destruct Hstep as [[-> ->]|(Hne & Hlead & Hpos)].
    + split; [lia|by left].
    + split; [|by right]. destruct (open_set st); [done|lia].
  - destruct Hstep as (Hne & Hinv' & Hless).
    destruct (IH st' Hinv') as (path & pops & -> & Hpops & Hpath); [lia|].
    simpl. exists path. eexists. split; [done|]. split; [|done].
    destruct (open_set st); [done|lia].
Qed.

Lemma length_grid_cells : length grid_cells = Z.to_nat (GRID_WIDTH * GRID_HEIGHT).
Proof. unfold grid_cells. by rewrite length_fmap, length_seqZ. Qed.

Lemma size_list_to_set_le (l : list Cell) :
  (size (list_to_set l : gset Cell) ≤ length l)%nat.
Proof.
  induction l as [|x l IH].
  - rewrite list_to_set_nil, size_empty. done.
  - rewrite list_to_set_cons, size_union_alt, size_singleton. simpl.
    assert ((list_to_set l : gset Cell) ∖ {[x]} ⊆ list_to_set l) as Hle%subseteq_size
      by set_solver.
    lia.
Qed.

Lemma size_universe :
  (size (universe start) ≤ S (Z.to_nat (GRID_WIDTH * GRID_HEIGHT)))%nat.
Proof.
  unfold universe. rewrite size_union_alt, size_singleton.
  pose proof (size_list_to_set_le grid_cells) as Hle. rewrite length_grid_cells in Hle.
  revert Hle. generalize (list_to_set grid_cells : gset Cell). intros G Hle.
  assert (G ∖ {[start]} ⊆ G) as Hsub%subseteq_size by set_solver.
  lia.
Qed.

Lemma size_universe_in_bounds :
  in_bounds start →
  (size (universe start) ≤ Z.to_nat (GRID_WIDTH * GRID_HEIGHT))%nat.
Proof.
  intros [[Hx0 Hx1] [Hy0 Hy1]].
  pose proof (size_list_to_set_le grid_cells) as Hle. rewrite length_grid_cells in Hle.
  etrans; [|exact Hle]. apply subseteq_size. unfold universe.
  apply union_least; [|done]. apply singleton_subseteq_l.
  apply elem_of_list_to_set. unfold grid_cells. apply list_elem_of_fmap.
  exists (start.2 * GRID_WIDTH + start.1). split.
  - rewrite Z.add_comm, Z_mod_plus_full, Z_div_plus_full by lia.
    rewrite Z.mod_small, Z.div_small by lia.
    destruct start; simpl; f_equal; lia.
  - apply elem_of_seqZ. nia.
Qed.

(** The call returns, after at most as many pops as there are cells to
    close, with the empty list or a path to the goal. *)
Lemma astar_run_spec :
  ∃ path pops,
    astar_run snake start goal = Some (path, pops) ∧
    (pops ≤ size (universe start))%nat ∧
    (path = [] ∨ leads_to snake start goal path).
Proof.
  assert (remaining start (initial_search start goal) = size (universe start)) as Hrem.
  { unfold remaining.
    change (closed_set (initial_search start goal)) with (∅ : gset Cell).
    by rewrite difference_empty_L. }
  destruct (astar_loop_spec search_fuel (initial_search start goal))
    as (path & pops & Hrun & Hpops & Hpath).
  - apply initial_search_inv.
  - rewrite Hrem. pose proof size_universe. unfold search_fuel. lia.
  - exists path, pops. split; [exact Hrun|]. split; [|exact Hpath].
    rewrite <-Hrem. exact Hpops.
Qed.
End search.

Lemma astar_loop_return fuel snake goal st path :
  astar_step snake goal st = Some (inl path) →
  astar_loop (S fuel) snake goal st
  = Some (path, if open_set st is [] then 0%nat else 1%nat).
Proof. intros Hstep. simpl. by rewrite Hstep. Qed.

Lemma find_path_astar_spec snake start goal :
  ∃ path pops,
    astar_run snake start goal = Some (path, pops) ∧
    find_path_astar snake start goal = Some path ∧
    (pops ≤ size (universe start))%nat ∧
    (path = [] ∨ leads_to snake start goal path).
Proof.
  destruct (astar_run_spec snake start goal) as (path & pops & Hrun & Hpops & Hpath).
  exists path, pops. split; [exact Hrun|]. split; [|by split].
  unfold find_path_astar. rewrite Hrun. reflexivity.
Qed.

Lemma find_path_leads_to snake start goal path :
  find_path_astar snake start goal = Some path →
  path = [] ∨ leads_to snake start goal path.
Proof.
  destruct (find_path_astar_spec snake start goal) as (path' & pops & _ & Hfind & _ & Hpath).
  rewrite Hfind. by intros [= <-].
Qed.

Lemma unreachable_returns_empty snake start goal :
  ¬ reachable snake start goal → find_path_astar snake start goal = Some [].
Proof.
  intros Hno.
  destruct (find_path_astar_spec snake start goal) as (path & pops & _ & Hfind & _ & Hpath).
  rewrite Hfind. destruct Hpath as [->|Hlead]; [done|].
  destruct Hno. by exists path.
Qed.

Lemma adjacent_delta a b :
  adjacent a b ↔ (b.1 - a.1, b.2 - a.2) ∈ DIRECTIONS.
Proof. by rewrite elem_of_DIRECTIONS. Qed.

Lemma first_step_adjacent snake start goal next rest :
  find_path_astar snake start goal = Some (next :: rest) → adjacent start next.
Proof.
  intros [?|[Hvalid _]]%find_path_leads_to; [done|]. apply Hvalid.
Qed.

(** The last step of a path into [goal] comes from a cell that is the
    start or free. *)
Lemma leads_to_last_step snake start goal path :
  leads_to snake start goal path → path ≠ [] →
  ∃ prev, adjacent prev goal ∧ (prev = start ∨ free_cell snake prev).
Proof.
  intros [Hvalid Hlast] Hne.
  assert (∀ from, valid_path snake from path → last (from :: path) = Some goal →
            ∃ prev, adjacent prev goal ∧ (prev = from ∨ free_cell snake prev)) as Hgen.
  { clear Hvalid Hlast. induction path as [|c path IH]; [done|].
    intros from (Hadj & Hfree & Hrest) Hl. destruct path as [|c' path].
    - simpl in Hl. simplify_eq. exists from. auto.
    - destruct (IH ltac:(done) c Hrest Hl) as (prev & Hprev & Hor).
      exists prev. split; [done|]. destruct Hor as [->|?]; auto. }
  by apply Hgen.
Qed.

(** ** The fallback and the tick *)

Lemma random_choice_elem_of {A} r (seq : list A) :
  seq ≠ [] → ∃ x, random_choice r seq = Some x ∧ x ∈ seq.
Proof.
  intros Hne. unfold random_choice.
  destruct (lookup_lt_is_Some_2 seq (r `mod` length seq)%nat) as [x Hx].
  - apply Nat.mod_upper_bound. by destruct seq.
  - exists x. split; [done|]. by eapply list_elem_of_lookup_2.
Qed.

Lemma get_safe_direction_cases r self head :
  self_snake self !! 0%nat = Some head →
  ∃ d, get_safe_direction r self = Some d ∧
       ((safe_directions (self_snake self) head = [] ∧ d = self_direction self) ∨
        d ∈ safe_directions (self_snake self) head).
Proof.
  intros Hhead. unfold get_safe_direction. rewrite Hhead. simpl.
  destruct (safe_directions _ _) as [|d0 safe] eqn:Hsafe.
  - exists (self_direction self). auto.
  - destruct (random_choice_elem_of r (d0 :: safe)) as (d & Hd & Hin); [done|].
    exists d. auto.
Qed.

Lemma elem_of_safe_directions snake head d :
  d ∈ safe_directions snake head ↔
  d ∈ DIRECTIONS ∧ in_bounds (shift head d) ∧ shift head d ∉ snake.
Proof. rewrite safe_directions_filter, list_elem_of_filter. tauto. Qed.

Lemma update_ai_direction r self self' :
  self_direction self ∈ DIRECTIONS →
  update_ai r self = Some self' →
  self_direction self' ∈ DIRECTIONS.
Proof.
  intros Hdir Hupd. unfold update_ai in Hupd.
  destruct (self_snake self !! 0%nat) as [head|] eqn:Hhead; [|done].
  simpl in Hupd.
  destruct (find_path_astar (self_snake self) head (self_food self))
    as [[|next rest]|] eqn:Hpath; [| |done]; simpl in Hupd.
  - destruct (get_safe_direction_cases r
                (mkGame (self_snake self) (self_direction self) (self_food self)
                   (self_score self) (self_food_eaten self) [] 0
                   (self_ai_running self)) head Hhead) as (d & Hd & Hcases).
    rewrite Hd in Hupd. simpl in Hupd. simplify_eq. simpl.
    destruct Hcases as [[_ ->]|Hin%elem_of_safe_directions]; [done|apply Hin].
  - simplify_eq. simpl. apply adjacent_delta. by eapply first_step_adjacent.
Qed.

Lemma update_game_direction r draws self self' :
  self_direction self ∈ DIRECTIONS →
  update_game r draws self = Some self' →
  self_direction self' ∈ DIRECTIONS.
Proof.
  intros Hdir Hupd. unfold update_game in Hupd.
  destruct (self_ai_running self); simpl in Hupd; [|by simplify_eq].
  destruct (update_ai r self) as [self1|] eqn:Hai; [|done]. simpl in Hupd.
  apply update_ai_direction in Hai; [|done].
  destruct (self_snake self1 !! 0%nat) as [head|]; [|done]. simpl in Hupd.
  case_decide; [by simplify_eq/=|].
  case_decide; [|by simplify_eq/=].
  destruct (generate_food _ _); by simplify_eq/=.
Qed.

Lemma game_state_direction self :
  game_state self → self_direction self ∈ DIRECTIONS.
Proof.
  induction 1 as [draws self Hreset|ev self self' _ IH Hframe].
  - unfold reset_game in Hreset. destruct (generate_food _ _); simplify_eq/=.
    apply elem_of_DIRECTIONS. done.
  - destruct ev as [|draws|r draws]; simpl in Hframe.
    + by simplify_eq.
    + unfold reset_game in Hframe. destruct (generate_food _ _); simplify_eq/=.
      apply elem_of_DIRECTIONS. done.
    + by eapply update_game_direction.
Qed.

Lemma run_frames_game_state evs self self' :
  game_state self → run_frames evs self = Some self' → game_state self'.
Proof.
  revert self. induction evs as [|ev evs IH]; intros self Hstate Hrun; simpl in Hrun.
  - by simplify_eq.
  - destruct (frame ev self) as [self1|] eqn:Hframe; [|done].
    eapply IH; [|exact Hrun]. by eapply game_frame.
Qed.

(** A goal whose four neighbours are neither the start nor free cannot be
    reached. *)
Lemma enclosed_unreachable snake start goal :
  start ≠ goal →
  Forall (λ d, shift goal d ≠ start ∧ ¬ free_cell snake (shift goal d)) DIRECTIONS →
  ¬ reachable snake start goal.
Proof.
  intros Hne Hwall [path Hlead].
  destruct (leads_to_last_step snake start goal path Hlead) as (prev & Hadj & Hprev).
  { intros ->. destruct Hlead as [_ Hlast]. simpl in Hlast. by simplify_eq. }
  rewrite Forall_forall in Hwall.
  destruct (Hwall (prev.1 - goal.1, prev.2 - goal.2)) as [Hns Hnf].
  { apply elem_of_DIRECTIONS. unfold adjacent in Hadj. simpl. lia. }
  assert (shift goal (prev.1 - goal.1, prev.2 - goal.2) = prev) as Heq.
  { unfold shift. destruct prev; simpl; f_equal; lia. }
  rewrite Heq in Hns, Hnf. by destruct Hprev.
Qed.

(** * The properties of the specification *)

(** C1 (the code breaks it): a path returned by [find_path_astar] should be
    a shortest one. In the game state reached after the first food at
    (33,7), with the next food at (28,22) and the snake [(33,8); (33,7)],
    the engine plans 21 steps, while going straight down and then left
    takes 19. The open list is reordered only by [heappush] and [heappop];
    lowering [existing.f] in place leaves a cheaper node below dearer ones. *)
Theorem find_path_not_shortest :
  ∃ self path shorter,
    game_state self ∧
    self_snake self = [(33, 8); (33, 7)] ∧ self_food self = (28, 22) ∧
    find_path_astar (self_snake self) (33, 8) (self_food self) = Some path ∧
    leads_to (self_snake self) (33, 8) (self_food self) shorter ∧
    length path = 21%nat ∧ length shorter = 19%nat.
Proof.
  pose (evs := KeySpace :: replicate 22 (Tick 0 [(28, 22)])).
  assert (∃ self, reset_game [(33, 7)] false = Some self) as [self0 Hreset]
    by (by eexists).
  assert (∃ self, run_frames evs self0 = Some self ∧
                  self_snake self = [(33, 8); (33, 7)] ∧ self_food self = (28, 22))
    as (self & Hrun & Hsnake & Hfood).
  { vm_compute in Hreset. simplify_eq. vm_compute. by eexists. }
  exists self. eexists.
  exists (((λ y, (33, y)) <$> seqZ 9 14) ++ ((λ x, (x, 22)) <$> [32; 31; 30; 29; 28])).
  split; [eapply run_frames_game_state; [by eapply game_init|exact Hrun]|].
  rewrite Hsnake, Hfood. do 2 (split; [done|]).
  split; [vm_compute; reflexivity|].
  split; [|done]. apply (bool_decide_unpack _). vm_compute. exact I.
Qed.

(** C2 (the code breaks it): the popped node should have a minimal [f]
    among the entries of the open list. With the snake [(6,3)] and the goal
    (1,0), the 23rd pop takes a node of [f = 10] while two entries of
    [f = 8] are in the list; from the initial game state, head (20,15),
    with the food at (18,0), the 38th pop takes [f = 19] over [f = 17]. *)
Theorem popped_node_not_minimal :
  Exists (λ st, ¬ pop_is_minimal st)
         (astar_states search_fuel [(6, 3)] (1, 0) (initial_search (6, 3) (1, 0))) ∧
  Exists (λ st, ¬ pop_is_minimal st)
         (astar_states search_fuel [(20, 15)] (18, 0) (initial_search (20, 15) (18, 0))).
Proof. split; apply (bool_decide_unpack _); vm_compute; exact I. Qed.

(** C3: every cell of a path returned by [find_path_astar] is in bounds and
    is not a member of the body without its tail. *)
Theorem find_path_cells_free snake start goal path :
  find_path_astar snake start goal = Some path →
  Forall (λ c, in_bounds c ∧ c ∉ removelast snake) path.
Proof.
  intros [->|[Hvalid _]]%find_path_leads_to; [done|].
  by eapply valid_path_free.
Qed.

Lemma find_path_cells_free_witness :
  Forall (λ c, in_bounds c ∧ c ∉ removelast [(2, 2)]) [(2, 1); (2, 0)].
Proof.
  apply (find_path_cells_free [(2, 2)] (2, 2) (2, 0)). vm_compute. reflexivity.
Defined.

(** C4: when the goal cannot be reached from the start through free cells,
    [find_path_astar] returns the empty list (and does return). *)
Theorem find_path_unreachable_empty snake start goal :
  ¬ reachable snake start goal →
  find_path_astar snake start goal = Some [].
Proof. apply unreachable_returns_empty. Qed.

Lemma find_path_unreachable_empty_witness :
  find_path_astar [(0, 3); (0, 2); (0, 1); (1, 1); (1, 0); (2, 0); (3, 0)] (0, 3) (0, 0)
  = Some [].
Proof.
  apply find_path_unreachable_empty. apply enclosed_unreachable; [done|].
  apply (bool_decide_unpack _). vm_compute. exact I.
Defined.

(** C5: when some neighbour of the head is in bounds and off the whole body,
    [get_safe_direction] returns a direction leading to such a cell,
    whatever the random draw; when there is none, it returns the previous
    direction. *)
Theorem get_safe_direction_safe r self head :
  self_snake self !! 0%nat = Some head →
  ∃ d, get_safe_direction r self = Some d ∧
       ((∃ d0, d0 ∈ DIRECTIONS ∧ in_bounds (shift head d0) ∧
               shift head d0 ∉ self_snake self) →
        d ∈ DIRECTIONS ∧ in_bounds (shift head d) ∧ shift head d ∉ self_snake self) ∧
       ((∀ d0, d0 ∈ DIRECTIONS →
               ¬ (in_bounds (shift head d0) ∧ shift head d0 ∉ self_snake self)) →
        d = self_direction self).
Proof.
  intros Hhead.
  destruct (get_safe_direction_cases r self head Hhead) as (d & Hd & Hcases).
  exists d. split; [done|]. destruct Hcases as [[Hnone ->]|Hin].
  - split; [|done]. intros (d0 & Hd0 & Hsafe).
    assert (d0 ∈ safe_directions (self_snake self) head) as Hd0'
      by (by apply elem_of_safe_directions).
    rewrite Hnone in Hd0'. by apply elem_of_nil in Hd0'.
  - apply elem_of_safe_directions in Hin as (HD & Hb & Hfree). split; [done|].
    intros Hnone. by destruct (Hnone d HD).
Qed.

Lemma get_safe_direction_safe_witness :
  (∃ d, get_safe_direction 0 (mkGame [(20, 15); (20, 14)] RIGHT (0, 0) 0 0 [] 0 true)
        = Some d ∧
        d ∈ DIRECTIONS ∧ in_bounds (shift (20, 15) d) ∧
        shift (20, 15) d ∉ [(20, 15); (20, 14)]) ∧
  (∃ d, get_safe_direction 0
          (mkGame [(0, 0); (1, 0); (1, 1); (0, 1)] UP (5, 5) 0 0 [] 0 true) = Some d ∧
        d = UP).
Proof.
  split.
  - destruct (get_safe_direction_safe 0
                (mkGame [(20, 15); (20, 14)] RIGHT (0, 0) 0 0 [] 0 true) (20, 15) eq_refl)
      as (d & Hd & Hsafe & _).
    exists d. split; [exact Hd|]. apply Hsafe. exists DOWN.
    apply (bool_decide_unpack _). vm_compute. exact I.
  - destruct (get_safe_direction_safe 0
                (mkGame [(0, 0); (1, 0); (1, 1); (0, 1)] UP (5, 5) 0 0 [] 0 true) (0, 0) eq_refl)
      as (d & Hd & _ & Hnone).
    exists d. split; [exact Hd|]. apply Hnone. apply Forall_forall.
    apply (bool_decide_unpack _). vm_compute. exact I.
Defined.


(** C7: from a start inside the grid, [find_path_astar] returns, and its
    loop pops at most [GRID_WIDTH * GRID_HEIGHT] nodes. *)
Theorem find_path_terminates_bounded snake start goal :
  in_bounds start →
  ∃ path pops,
    astar_run snake start goal = Some (path, pops) ∧
    find_path_astar snake start goal = Some path ∧
    Z.of_nat pops ≤ GRID_WIDTH * GRID_HEIGHT.
Proof.
  intros Hstart.
  destruct (find_path_astar_spec snake start goal) as (path & pops & Hrun & Hfind & Hpops & _).
  exists path, pops. split; [exact Hrun|]. split; [exact Hfind|].
  pose proof (size_universe_in_bounds start Hstart) as Hsize.
  destruct Hstart as [[? ?] [? ?]]. nia.
Qed.

Lemma find_path_terminates_bounded_witness :
  ∃ path pops,
    astar_run [(20, 15)] (20, 15) (18, 0) = Some (path, pops) ∧
    find_path_astar [(20, 15)] (20, 15) (18, 0) = Some path ∧
    Z.of_nat pops ≤ GRID_WIDTH * GRID_HEIGHT.
Proof.
  apply (find_path_terminates_bounded [(20, 15)] (20, 15) (18, 0)).
  apply (bool_decide_unpack _). vm_compute. exact I.
Defined.

(** C8: in every state the game can reach from its initial state, the
    direction [update_ai] hands over is one of the four unit vectors; when
    a path was found, it is the step from the head to the first cell of
    the path, which is such a vector. *)
Theorem engine_direction_unit r self self' head :
  game_state self →
  update_ai r self = Some self' →
  self_snake self !! 0%nat = Some head →
  self_direction self' ∈ DIRECTIONS ∧
  match self_current_path self' with
  | [] => True
  | next :: _ =>
      self_direction self' = (next.1 - head.1, next.2 - head.2) ∧
      (next.1 - head.1, next.2 - head.2) ∈ DIRECTIONS
  end.
Proof.
  intros Hstate Hupd Hhead. split.
  - eapply update_ai_direction; [|exact Hupd]. by apply game_state_direction.
  - unfold update_ai in Hupd. rewrite Hhead in Hupd. simpl in Hupd.
    destruct (find_path_astar (self_snake self) head (self_food self))
      as [[|next rest]|] eqn:Hfind; [| |done]; simpl in Hupd.
    + destruct (get_safe_direction _ _); by simplify_eq/=.
    + simplify_eq/=. split; [done|].
      apply adjacent_delta. by eapply first_step_adjacent.
Qed.

Lemma engine_direction_unit_witness :
  UP ∈ DIRECTIONS ∧
  (UP = ((20, 14).1 - (20, 15).1, (20, 14).2 - (20, 15).2) ∧
   ((20, 14).1 - (20, 15).1, (20, 14).2 - (20, 15).2) ∈ DIRECTIONS).
Proof.
  apply (engine_direction_unit 0
           (mkGame [(20, 15)] RIGHT (20, 13) 0 0 [] 0 false)
           (mkGame [(20, 15)] UP (20, 13) 0 0 [(20, 14); (20, 13)] 1 false)
           (20, 15)).
  - apply (game_init [(20, 13)]). reflexivity.
  - vm_compute. reflexivity.
  - reflexivity.
Defined.

(** C9: when the tail of a snake of two or more distinct cells is in bounds
    and next to the head, [get_neighbors] at the head lists the tail cell,
    and [get_safe_direction] does not count the direction to it as safe. *)
Theorem tail_exclusion_asymmetry snake head tail :
  (2 ≤ length snake)%nat →
  NoDup snake →
  snake !! 0%nat = Some head →
  last snake = Some tail →
  in_bounds tail →
  adjacent head tail →
  tail ∈ get_neighbors snake head ∧
  (tail.1 - head.1, tail.2 - head.2) ∉ safe_directions snake head.
Proof.
  intros Hlen Hnd Hhead Hlast Hb Hadj.
  apply last_Some in Hlast as [front ->]. split.
  - apply elem_of_get_neighbors. split; [done|]. split; [done|].
    unfold occupied. rewrite removelast_last.
    apply NoDup_app in Hnd as (_ & Hdisj & _). intros Hin.
    apply (Hdisj _ Hin). by apply list_elem_of_singleton.
  - rewrite elem_of_safe_directions. intros (_ & _ & Hfree). apply Hfree.
    replace (shift head (tail.1 - head.1, tail.2 - head.2)) with tail.
    + apply elem_of_app. right. by apply list_elem_of_singleton.
    + unfold shift. destruct tail; simpl; f_equal; lia.
Qed.

Lemma tail_exclusion_asymmetry_witness :
  (5, 6) ∈ get_neighbors [(5, 5); (6, 5); (6, 6); (5, 6)] (5, 5) ∧
  ((5, 6).1 - (5, 5).1, (5, 6).2 - (5, 5).2)
    ∉ safe_directions [(5, 5); (6, 5); (6, 6); (5, 6)] (5, 5).
Proof.
  apply (tail_exclusion_asymmetry [(5, 5); (6, 5); (6, 6); (5, 6)] (5, 5) (5, 6)).
  - simpl. lia.
  - apply (bool_decide_unpack _). vm_compute. exact I.
  - reflexivity.
  - reflexivity.
  - apply (bool_decide_unpack _). vm_compute. exact I.
  - reflexivity.
Defined.

(** C10: with the goal equal to the start, [find_path_astar] returns the
    empty list, for every body and start; a goal that cannot be reached
    gives the same value, so the result does not tell the two apart. *)
Theorem find_path_goal_is_start snake start :
  find_path_astar snake start start = Some [] ∧
  ∀ goal, ¬ reachable snake start goal →
          find_path_astar snake start goal = find_path_astar snake start start.
Proof.
  assert (find_path_astar snake start start = Some []) as Hsame.
  { unfold find_path_astar, astar_run, search_fuel.
    erewrite astar_loop_return; [reflexivity|].
    destruct start as [x y]. unfold astar_step, initial_search. simpl.
    case_decide; [reflexivity|done]. }
  split; [exact Hsame|]. intros goal Hno.
  rewrite Hsame. by apply unreachable_returns_empty.
Qed.

Lemma find_path_goal_is_start_witness :
  find_path_astar [(0, 3); (0, 2); (0, 1); (1, 1); (1, 0); (2, 0); (3, 0)] (0, 3) (0, 3)
  = Some [] ∧
  find_path_astar [(0, 3); (0, 2); (0, 1); (1, 1); (1, 0); (2, 0); (3, 0)] (0, 3) (0, 0)
  = find_path_astar [(0, 3); (0, 2); (0, 1); (1, 1); (1, 0); (2, 0); (3, 0)] (0, 3) (0, 3).
Proof.
  destruct (find_path_goal_is_start
              [(0, 3); (0, 2); (0, 1); (1, 1); (1, 0); (2, 0); (3, 0)] (0, 3))
    as [Hsame Hno].
  split; [exact Hsame|]. apply Hno. apply enclosed_unreachable; [done|].
  apply (bool_decide_unpack _). vm_compute. exact I.
Defined.

(** * Further properties of the code *)

(** ** heuristic *)

(** X1: [heuristic] is a metric on cells: never negative, zero exactly on
    equal cells, symmetric, and it obeys the triangle inequality. *)
Theorem heuristic_metric a b c :
  0 ≤ heuristic a b ∧
  (heuristic a b = 0 ↔ a = b) ∧
  heuristic a b = heuristic b a ∧
  heuristic a c ≤ heuristic a b + heuristic b c.
Proof.
  unfold heuristic. destruct a as [ax ay], b as [bx b_y], c as [cx cy]. simpl.
  split_and!; [lia| |lia|lia].
  split; [|intros [= -> ->]; lia].
  intros Hzero. f_equal; lia.
Qed.

Lemma heuristic_step a b goal :
  adjacent a b → heuristic a goal ≤ 1 + heuristic b goal.
Proof. unfold adjacent, heuristic. lia. Qed.

Lemma valid_path_heuristic snake from goal path :
  valid_path snake from path → last (from :: path) = Some goal →
  heuristic from goal ≤ Z.of_nat (length path).
Proof.
  revert from. induction path as [|c path IH]; intros from Hvalid Hlast.
  - simpl in Hlast. simplify_eq. unfold heuristic. simpl. lia.
  - destruct Hvalid as (Hadj & _ & Hrest).
    specialize (IH c Hrest Hlast).
    pose proof (heuristic_step from c goal Hadj). simpl length. lia.
Qed.

(** X2: no sequence of steps between adjacent cells from [start] to [goal]
    is shorter than [heuristic start goal]: the estimate never exceeds the
    true cost. *)
Theorem heuristic_admissible snake start goal path :
  leads_to snake start goal path →
  heuristic start goal ≤ Z.of_nat (length path).
Proof. intros [Hvalid Hlast]. by eapply valid_path_heuristic. Qed.

Lemma heuristic_admissible_witness :
  heuristic (2, 2) (3, 0) ≤ Z.of_nat (length [(2, 1); (2, 0); (3, 0)]).
Proof.
  apply (heuristic_admissible [(2, 2)] (2, 2) (3, 0)).
  apply (bool_decide_unpack _). vm_compute. exact I.
Defined.

(** ** get_neighbors *)

(** X3: [get_neighbors] lists exactly the cells next to [pos] that are in
    bounds and not in the body without its tail, each once, at most four. *)
Theorem get_neighbors_exact snake pos :
  (∀ c, c ∈ get_neighbors snake pos ↔
        adjacent pos c ∧ in_bounds c ∧ c ∉ removelast snake) ∧
  NoDup (get_neighbors snake pos) ∧
  (length (get_neighbors snake pos) ≤ 4)%nat.
Proof.
  split_and!.
  - intros c. apply elem_of_get_neighbors.
  - rewrite get_neighbors_filter. apply NoDup_fmap_2_strong.
    + intros d1 d2 _ _ Heq. unfold shift in Heq.
      destruct d1, d2; simpl in *. simplify_eq. f_equal; lia.
    + apply NoDup_filter. by apply (bool_decide_unpack _).
  - rewrite get_neighbors_filter, length_fmap.
    etrans; [apply length_filter|]. done.
Qed.

(** ** find_path_astar *)

(** X4: a non-empty result is a walk from the start to the goal: the first
    cell is next to the start, each cell is next to the one before it, in
    bounds and not on the body without its tail, and the last cell is the
    goal; it has at least [heuristic start goal] cells. *)
Theorem find_path_is_walk snake start goal c path :
  find_path_astar snake start goal = Some (c :: path) →
  leads_to snake start goal (c :: path) ∧
  heuristic start goal ≤ Z.of_nat (length (c :: path)).
Proof.
  intros [?|Hlead]%find_path_leads_to; [done|].
  split; [done|]. destruct Hlead as [Hvalid Hlast]. by eapply valid_path_heuristic.
Qed.

Lemma find_path_is_walk_witness :
  leads_to [(2, 2); (2, 3)] (2, 2) (3, 1) [(2, 1); (3, 1)] ∧
  heuristic (2, 2) (3, 1) ≤ Z.of_nat (length [(2, 1); (3, 1)]).
Proof.
  apply (find_path_is_walk [(2, 2); (2, 3)] (2, 2) (3, 1)).
  vm_compute. reflexivity.
Defined.

(** X5: [find_path_astar] returns for every start, also one outside the
    grid, after at most [GRID_WIDTH * GRID_HEIGHT + 1] pops. *)
Theorem find_path_always_returns snake start goal :
  ∃ path pops,
    astar_run snake start goal = Some (path, pops) ∧
    find_path_astar snake start goal = Some path ∧
    Z.of_nat pops ≤ GRID_WIDTH * GRID_HEIGHT + 1.
Proof.
  destruct (find_path_astar_spec snake start goal)
    as (path & pops & Hrun & Hfind & Hpops & _).
  exists path, pops. split; [exact Hrun|]. split; [exact Hfind|].
  pose proof (size_universe start) as Hsize.
  assert (0 ≤ GRID_WIDTH * GRID_HEIGHT) by (by vm_compute).
  lia.
Qed.

(** X6: a goal that is outside the grid or on the body without its tail,
    and is not the start, gives the empty list. *)
Theorem find_path_goal_not_free snake start goal :
  ¬ free_cell snake goal → goal ≠ start →
  find_path_astar snake start goal = Some [].
Proof.
  intros Hnot Hne. apply unreachable_returns_empty. intros [path [Hvalid Hlast]].
  destruct path as [|c path _] using rev_ind.
  - simpl in Hlast. by simplify_eq.
  - rewrite app_comm_cons, last_snoc in Hlast. simplify_eq.
    apply valid_path_free in Hvalid. rewrite Forall_app in Hvalid.
    destruct Hvalid as [_ Hgoal]. apply Hnot. by inversion Hgoal.
Qed.

Lemma find_path_goal_not_free_witness :
  find_path_astar [(5, 5); (6, 5); (7, 5); (8, 5)] (5, 5) (7, 5) = Some [] ∧
  find_path_astar [(5, 5)] (5, 5) (40, 5) = Some [].
Proof.
  split.
  - apply find_path_goal_not_free; [|done].
    apply (bool_decide_unpack _). vm_compute. exact I.
  - apply find_path_goal_not_free; [|done].
    apply (bool_decide_unpack _). vm_compute. exact I.
Defined.

(** ** generate_food, update_ai and update_game *)

Lemma generate_food_spec draws snake :
  match generate_food draws snake with
  | Some food_pos =>
      (food_pos ∉ snake) ∧
      (∃ rejected rest, draws = rejected ++ food_pos :: rest ∧
                        Forall (λ c, c ∈ snake) rejected)
  | None => Forall (λ c, c ∈ snake) draws
  end.
Proof.
  induction draws as [|c draws IH]; simpl; [done|].
  case_decide as Hc.
  - split; [done|]. by exists [], draws.
  - destruct (generate_food draws snake) as [food_pos|].
    + destruct IH as (Hfree & rejected & rest & -> & Hrej).
      split; [done|]. exists (c :: rejected), rest. split; [done|]. by constructor.
    + by constructor.
Qed.

Lemma generate_food_not_elem draws snake food_pos :
  generate_food draws snake = Some food_pos → food_pos ∉ snake.
Proof.
  intros Hgen. pose proof (generate_food_spec draws snake) as Hspec.
  rewrite Hgen in Hspec. apply Hspec.
Qed.

(** X7: [generate_food] returns the first draw that is not on the snake, so
    never a cell of the snake; it keeps drawing exactly as long as the draws
    fall on the snake. *)
Theorem generate_food_first_free draws snake :
  match generate_food draws snake with
  | Some food_pos =>
      (food_pos ∉ snake) ∧
      (∃ rejected rest, draws = rejected ++ food_pos :: rest ∧
                        Forall (λ c, c ∈ snake) rejected)
  | None => Forall (λ c, c ∈ snake) draws
  end.
Proof. apply generate_food_spec. Qed.

(** [update_ai] only writes the path, its cursor and the direction. *)
Lemma update_ai_frame r self self' :
  update_ai r self = Some self' →
  self_snake self' = self_snake self ∧ self_food self' = self_food self ∧
  self_score self' = self_score self ∧
  self_food_eaten self' = self_food_eaten self ∧
  self_ai_running self' = self_ai_running self.
Proof.
  intros Hupd. unfold update_ai in Hupd.
  destruct (self_snake self !! 0%nat) as [head|]; [|done]. simpl in Hupd.
  destruct (find_path_astar _ _ _) as [[|next rest]|]; [| |done]; simpl in Hupd.
  - destruct (get_safe_direction _ _); by simplify_eq/=.
  - by simplify_eq/=.
Qed.

Lemma elem_of_removelast (l : list Cell) x : x ∈ removelast l → x ∈ l.
Proof.
  induction l as [|a [|b l] IH]; simpl; [done|by intros ?%elem_of_nil|].
  intros [->|Hin]%elem_of_cons; [left|right; by apply IH].
Qed.

Lemma NoDup_removelast (l : list Cell) : NoDup l → NoDup (removelast l).
Proof.
  induction l as [|a [|b l] IH]; simpl; [done|constructor|].
  intros [Ha Hnd]%NoDup_cons. apply NoDup_cons. split; [|by apply IH].
  intros Hin. by apply Ha, elem_of_removelast.
Qed.

Lemma Forall_removelast (P : Cell → Prop) (l : list Cell) :
  Forall P l → Forall P (removelast l).
Proof.
  rewrite !Forall_forall. intros Hall x Hx. by apply Hall, elem_of_removelast.
Qed.

Lemma contiguous_removelast (l : list Cell) : contiguous l → contiguous (removelast l).
Proof.
  induction l as [|a [|b [|c l]] IH]; simpl; try done.
  intros [Hab Hrest]. split; [done|]. by apply IH.
Qed.

Lemma length_removelast_cons (a : Cell) (l : list Cell) :
  length (removelast (a :: l)) = length l.
Proof.
  revert a. induction l as [|b l IH]; intros a; [done|].
  change (S (length (removelast (b :: l))) = S (length l)).
  f_equal. apply IH.
Qed.

Lemma reset_game_ok draws ai_running self :
  reset_game draws ai_running = Some self → game_ok self.
Proof.
  unfold reset_game. intros Hreset.
  destruct (generate_food draws _) as [food|] eqn:Hfood; simplify_eq/=.
  apply generate_food_not_elem in Hfood.
  split; simpl; [done|apply NoDup_singleton| |done|done|done|done].
  apply Forall_singleton. by apply (bool_decide_unpack _).
Qed.

Lemma update_game_ok r draws self self' :
  game_ok self → self_direction self ∈ DIRECTIONS →
  update_game r draws self = Some self' → game_ok self'.
Proof.
  intros Hok Hdir Hupd. unfold update_game in Hupd.
  destruct (self_ai_running self); simpl in Hupd; [|by simplify_eq].
  destruct (update_ai r self) as [self1|] eqn:Hai; [|done]. simpl in Hupd.
  pose proof (update_ai_direction _ _ _ Hdir Hai) as Hdir1.
  apply update_ai_frame in Hai as (Hs & Hf & Hsc & He & _).
  assert (game_ok self1) as Hok1.
  { destruct Hok. split; by rewrite ?Hs, ?Hf, ?Hsc, ?He. }
  clear Hok Hs Hf Hsc He Hdir. destruct Hok1 as [Hne Hnd Hb Hc Hfood Hscore Hlen].
  destruct (self_snake self1) as [|head body] eqn:Hsnake; [done|]. simpl in Hupd.
  apply elem_of_DIRECTIONS in Hdir1.
  set (new_head := (head.1 + (self_direction self1).1,
                    head.2 + (self_direction self1).2)) in *.
  assert (adjacent new_head head) as Hadj.
  { unfold adjacent, new_head. simpl. lia. }
  case_decide as Hhit.
  { simplify_eq. split; simpl; by rewrite ?Hsnake. }
  assert (in_bounds new_head ∧ new_head ∉ head :: body) as [Hnb Hnew].
  { split; [|tauto]. unfold in_bounds. fold new_head in Hhit.
    assert (¬ new_head.1 < 0 ∧ ¬ new_head.1 >= GRID_WIDTH ∧
            ¬ new_head.2 < 0 ∧ ¬ new_head.2 >= GRID_HEIGHT) by tauto.
    lia. }
  case_decide as Heat.
  - destruct (generate_food draws _) as [food|] eqn:Hgen; simplify_eq/=.
    apply generate_food_not_elem in Hgen.
    split; simpl; [done|by constructor|by constructor|done|done|lia|].
    simpl in Hlen. lia.
  - simplify_eq. split; simpl self_snake; simpl self_food;
      simpl self_score; simpl self_food_eaten.
    + done.
    + apply (NoDup_removelast (new_head :: head :: body)). by constructor.
    + apply (Forall_removelast _ (new_head :: head :: body)). by constructor.
    + by apply (contiguous_removelast (new_head :: head :: body)).
    + intros Hin%(elem_of_removelast (new_head :: head :: body)).
      apply elem_of_cons in Hin as [?|?]; [by apply Heat|done].
    + done.
    + rewrite <-Hlen. f_equal. apply (length_removelast_cons new_head (head :: body)).
Qed.

Lemma game_state_ok self : game_state self → game_ok self.
Proof.
  induction 1 as [draws self Hreset|ev self self' Hstate IH Hframe].
  - by eapply reset_game_ok.
  - destruct ev as [|draws|r draws]; simpl in Hframe.
    + simplify_eq. by destruct IH.
    + by eapply reset_game_ok.
    + eapply update_game_ok; [done| |done]. by apply game_state_direction.
Qed.

(** X8: in every state the game reaches, the snake is not empty, has no
    cell twice, lies inside the grid, and consecutive segments are next to
    each other. *)
Theorem game_snake_well_formed self :
  game_state self →
  self_snake self ≠ [] ∧ NoDup (self_snake self) ∧
  Forall in_bounds (self_snake self) ∧ contiguous (self_snake self).
Proof. intros [? ? ? ? _ _ _]%game_state_ok. done. Qed.

(** X9: in every state the game reaches, the food is not on the snake. *)
Theorem game_food_off_snake self :
  game_state self → self_food self ∉ self_snake self.
Proof. intros Hok%game_state_ok. apply Hok. Qed.

(** X10: in every state the game reaches, the score is ten times the food
    eaten, and the snake has one segment more than the food eaten. *)
Theorem game_score_accounting self :
  game_state self →
  self_score self = 10 * self_food_eaten self ∧
  Z.of_nat (length (self_snake self)) = self_food_eaten self + 1.
Proof. intros Hok%game_state_ok. split; apply Hok. Qed.

(** ** find_path_astar: what the search covers *)

Section search_more.
Context (snake : list Cell) (start goal : Cell).

Lemma NoDup_fmap_lookup {B C : Type} (f : B → C) (l : list B) i j a b :
  NoDup (f <$> l) → l !! i = Some a → l !! j = Some b → f a = f b → i = j.
Proof.
  intros Hnd Hi Hj Heq. eapply NoDup_lookup; [exact Hnd| |].
  - by rewrite list_lookup_fmap, Hi.
  - by rewrite list_lookup_fmap, Hj, Heq.
Qed.

(** The walk up the parents visits no cell twice and stops short of the
    start. *)
Lemma reconstruct_loop_simple ns op :
  (∀ r n, ns !! r = Some n → node_ok snake start ns op n) →
  NoDup (node_pos <$> ns) →
  (∃ n0, ns !! 0%nat = Some n0 ∧ node_pos n0 = start ∧ node_parent n0 = None) →
  ∀ fuel r n path result,
    ns !! r = Some n →
    reconstruct_loop fuel ns r path = Some result →
    ∃ chain, result = path ++ chain ∧ NoDup chain ∧ (start ∉ chain) ∧
             ∀ x, x ∈ chain →
                  ∃ r' n', ns !! r' = Some n' ∧ node_pos n' = x ∧ node_g n' ≤ node_g n.
Proof.
  intros Hok Hnd (n0 & Hn0 & Hpos0 & Hpar0) fuel.
  induction fuel as [|fuel IH]; intros r n path result Hr Hrec; [done|].
  simpl in Hrec. rewrite (list_lookup_total_correct _ _ _ Hr) in Hrec.
  destruct (node_parent n) as [p|] eqn:Hparent.
  - pose proof (ok_parent (Hok _ _ Hr)) as Hpn. rewrite Hparent in Hpn.
    destruct Hpn as (_ & pn & Hp & Hg & _).
    destruct (IH p pn _ _ Hp Hrec) as (chain & -> & Hndc & Hstart & Hchain).
    exists (node_pos n :: chain). split; [by rewrite <-app_assoc|]. split_and!.
    + apply NoDup_cons. split; [|done]. intros (r' & n' & Hr' & Hpos & Hle)%Hchain.
      assert (r' = r) as -> by (by eapply (NoDup_fmap_lookup node_pos ns)).
      simplify_eq. lia.
    + intros [Heq|?]%elem_of_cons; [|done].
      assert (r = 0%nat) as ->.
      { eapply (NoDup_fmap_lookup node_pos ns); [done..|]. by rewrite Hpos0. }
      simplify_eq.
    + intros x [->|(r' & n' & Hr' & Hpos & Hle)%Hchain]%elem_of_cons.
      * exists r, n. split_and!; [done..|lia].
      * exists r', n'. split_and!; [done..|lia].
  - simplify_eq. exists []. rewrite app_nil_r. split_and!; [done|constructor| |].
    + apply not_elem_of_nil.
    + by intros x ?%elem_of_nil.
Qed.

Lemma reconstruct_path_simple st D r path :
  search_inv snake start st → frontier_inv snake start goal D st →
  (r < length (nodes st))%nat →
  reconstruct_path (nodes st) r = Some path →
  NoDup (start :: path).
Proof.
  intros Hinv Hfr Hr Hrec. unfold reconstruct_path in Hrec.
  apply fmap_Some in Hrec as (result & Hloop & ->).
  apply list_lookup_lookup_total_lt in Hr.
  destruct (reconstruct_loop_simple (nodes st) (open_set st) (inv_nodes Hinv)
              (fr_NoDup Hfr) (fr_root Hfr) _ _ _ _ _ Hr Hloop)
    as (chain & -> & Hnd & Hstart & _).
  simpl. apply NoDup_cons. split.
  - by rewrite elem_of_reverse.
  - by rewrite reverse_Permutation.
Qed.

Lemma initial_frontier_inv : frontier_inv snake start goal ∅ (initial_search start goal).
Proof.
  unfold initial_search. split; simpl.
  - by right.
  - apply not_elem_of_empty.
  - intros c c' Hc. by apply not_elem_of_empty in Hc.
  - intros r Hr. left. assert (r = 0%nat) as -> by lia. by apply list_elem_of_singleton.
  - apply NoDup_singleton.
  - eexists. split; [done|]. split; [|done]. by destruct start.
Qed.

(** Visiting a neighbour leaves it closed or open, and forgets no open
    cell. *)
Lemma visit_neighbor_frontier current c st pos D :
  expanding snake start current c st →
  frontier_inv snake start goal D st →
  start ∈ closed_set st →
  pos ∈ get_neighbors snake (node_pos c) →
  let st' := visit_neighbor goal current st pos in
  frontier_inv snake start goal D st' ∧
  (pos ∈ closed_set st' ∨ pos ∈ cell_of (nodes st') <$> open_set st') ∧
  (∀ x, x ∈ cell_of (nodes st) <$> open_set st →
        x ∈ cell_of (nodes st') <$> open_set st').
Proof.
  intros Hexp Hfr Hstart Hpos. pose proof (exp_inv Hexp) as Hinv. simpl.
  unfold visit_neighbor. case_decide as Hclosed; [by auto|].
  rewrite (list_lookup_total_correct _ _ _ (exp_current Hexp)).
  destruct (find_existing _ _ _) as [e|] eqn:Hfind.
  - apply find_existing_Some in Hfind as [He Hcell].
    assert (pos ∈ cell_of (nodes st) <$> open_set st) as Hopen.
    { rewrite <-Hcell. by apply list_elem_of_fmap_2. }
    case_decide; [|by auto].
    set (e' := mkNode _ _ _ _ _ _).
    assert (∀ r, cell_of (<[e:=e']> (nodes st)) r = cell_of (nodes st) r) as Hsame.
    { intros r. by apply cell_of_insert. }
    assert (cell_of (<[e:=e']> (nodes st)) <$> open_set st
            = cell_of (nodes st) <$> open_set st) as Hcells.
    { by apply list_fmap_ext. }
    simpl. rewrite Hcells. split_and!; [split; simpl|by right|done].
    + by left.
    + apply Hfr.
    + rewrite Hcells. apply Hfr.
    + intros r. rewrite length_insert, Hsame. apply Hfr.
    + rewrite list_fmap_insert, list_insert_id; [apply Hfr|].
      rewrite list_lookup_fmap.
      rewrite (list_lookup_lookup_total_lt (nodes st) e) by (by apply Hinv). done.
    + destruct (fr_root Hfr) as (n0 & Hn0 & Hpos0 & Hpar0).
      exists n0. split; [|done]. rewrite list_lookup_insert_ne; [done|].
      intros ->. apply (inv_open_closed Hinv _ He).
      unfold cell_of. by rewrite (list_lookup_total_correct _ _ _ Hn0), Hpos0.
  - apply find_existing_None in Hfind.
    set (neighbor := Node_init _ _ _ _ _).
    set (nodes' := nodes st ++ [neighbor]).
    set (open' := heappush (ref_lt nodes') (open_set st) (length (nodes st))).
    assert (cell_of nodes' (length (nodes st)) = pos) as Hnew.
    { unfold cell_of, nodes'. rewrite lookup_total_app_r by done.
      rewrite Nat.sub_diag. simpl. by destruct pos. }
    assert (∀ x, x ∈ cell_of (nodes st) <$> open_set st → x ∈ cell_of nodes' <$> open')
      as Hmono.
    { intros x (r & -> & Hr)%list_elem_of_fmap.
      rewrite <-(cell_of_app (nodes st) neighbor r) by (by apply Hinv).
      apply list_elem_of_fmap_2. apply elem_of_heappush. by right. }
    assert (pos ∈ cell_of nodes' <$> open') as Hin.
    { rewrite <-Hnew. apply list_elem_of_fmap_2. apply elem_of_heappush. by left. }
    simpl. split_and!; [split; simpl|by right|done].
    + by left.
    + apply Hfr.
    + intros x x' Hx Hx'. destruct (fr_done Hfr _ _ Hx Hx'); auto.
    + intros r Hr. unfold nodes' in Hr. rewrite length_app in Hr. simpl in Hr.
      destruct (decide (r = length (nodes st))) as [->|Hne].
      * left. apply elem_of_heappush. by left.
      * assert (r < length (nodes st))%nat as Hlt by lia.
        unfold nodes'. rewrite cell_of_app by done.
        destruct (fr_nodes Hfr r Hlt); [left|by right].
        apply elem_of_heappush. by right.
    + unfold nodes'. rewrite fmap_app. apply NoDup_app. split_and!.
      * apply Hfr.
      * intros x Hx ->%list_elem_of_singleton.
        apply list_elem_of_fmap in Hx as (n & Hp & Hn).
        apply list_elem_of_lookup in Hn as [r Hn].
        pose proof (lookup_lt_Some _ _ _ Hn) as Hlt.
        assert (node_pos neighbor = pos) as Hnp by (by destruct pos).
        assert (cell_of (nodes st) r = pos) as Hcr.
        { unfold cell_of. by rewrite (list_lookup_total_correct _ _ _ Hn), <-Hp. }
        destruct (fr_nodes Hfr r Hlt) as [Hop|Hcl].
        -- apply Hfind. rewrite <-Hcr. by apply list_elem_of_fmap_2.
        -- by rewrite Hcr in Hcl.
      * apply NoDup_singleton.
    + destruct (fr_root Hfr) as (n0 & Hn0 & ?). exists n0. split; [|done].
      by apply lookup_app_l_Some.
Qed.

Lemma visit_neighbors_frontier current c poss st D :
  expanding snake start current c st →
  frontier_inv snake start goal D st →
  start ∈ closed_set st →
  (∀ pos, pos ∈ poss → pos ∈ get_neighbors snake (node_pos c)) →
  let st' := foldl (visit_neighbor goal current) st poss in
  frontier_inv snake start goal D st' ∧
  (∀ pos, pos ∈ poss →
          pos ∈ closed_set st' ∨ pos ∈ cell_of (nodes st') <$> open_set st') ∧
  (∀ x, x ∈ cell_of (nodes st) <$> open_set st →
        x ∈ cell_of (nodes st') <$> open_set st').
Proof.
  revert st. induction poss as [|pos poss IH]; intros st Hexp Hfr Hstart Hposs; simpl.
  { split_and!; [done| |done]. by intros ? ?%elem_of_nil. }
  assert (pos ∈ get_neighbors snake (node_pos c)) as Hpos by (apply Hposs; left).
  destruct (visit_neighbor_spec snake start goal current c st pos Hexp Hpos)
    as [Hexp1 Hcl1].
  destruct (visit_neighbor_frontier current c st pos D Hexp Hfr Hstart Hpos)
    as (Hfr1 & Hin1 & Hmono1).
  destruct (IH (visit_neighbor goal current st pos)) as (Hfr2 & Hin2 & Hmono2);
    [done|done|by rewrite Hcl1|by intros ? ?; apply Hposs; right|].
  destruct (visit_neighbors_spec snake start goal current c poss _ Hexp1) as [_ Hcl2].
  { intros ? ?. apply Hposs. by right. }
  split_and!; [done| |by auto].
  intros x [->|Hx]%elem_of_cons; [|by auto].
  destruct Hin1 as [Hc|Ho]; [left|right; by auto].
  by rewrite Hcl2.
Qed.

(** When the open list is empty, everything that can be reached from the
    start is closed; the goal never is. *)
Lemma exhausted_unreachable st :
  frontier_inv snake start goal (closed_set st) st →
  open_set st = [] → ¬ reachable snake start goal.
Proof.
  intros Hfr Hopen [path [Hvalid Hlast]].
  assert (start ∈ closed_set st) as Hstart.
  { destruct (fr_start Hfr) as [?|Heq]; [done|]. by rewrite Hopen in Heq. }
  assert (∀ from, from ∈ closed_set st → valid_path snake from path →
                  last (from :: path) = Some goal → False) as Hgen.
  { clear Hvalid Hlast. induction path as [|x path IH]; intros from Hfrom Hv Hl.
    - simpl in Hl. simplify_eq. by apply (fr_goal Hfr).
    - destruct Hv as (Hadj & Hfree & Hrest).
      apply (IH x); [|done|done].
      destruct (fr_done Hfr from x Hfrom) as [?|Hin]; [|done|].
      + by apply elem_of_get_neighbors.
      + rewrite Hopen in Hin. by apply elem_of_nil in Hin. }
  by eapply Hgen.
Qed.

Lemma astar_step_frontier st :
  search_inv snake start st →
  frontier_inv snake start goal (closed_set st) st →
  match astar_step snake goal st with
  | Some (inr st') => frontier_inv snake start goal (closed_set st') st'
  | Some (inl path) =>
      (reachable snake start goal → leads_to snake start goal path) ∧
      NoDup (start :: path)
  | None => True
  end.
Proof.
  intros Hinv Hfr. unfold astar_step.
  destruct (open_set st) as [|r0 op0] eqn:Hopen.
  { split; [|apply NoDup_singleton].
    intros Hreach. by destruct (exhausted_unreachable st Hfr Hopen). }
  rewrite <-Hopen.
  destruct (heappop (ref_lt (nodes st)) (open_set st)) as [[current open']|] eqn:Hpop;
    [|done].
  simpl. destruct (pop_spec snake start st current open' Hinv Hpop) as (Hexp & Hlt & Huniv).
  pose proof (heappop_Permutation _ _ _ _ Hpop) as Hperm.
  case_decide as Hgoal.
  - destruct (reconstruct_path_spec snake start st current Hinv Hlt) as (path & Hrec & Hlead).
    rewrite Hrec. simpl. split.
    + intros _. unfold cell_of in Hlead. by rewrite Hgoal in Hlead.
    + by eapply reconstruct_path_simple.
  - set (c := nodes st !!! current) in *.
    set (st1 := mkSearch (nodes st) open' ({[node_pos c]} ∪ closed_set st)) in *.
    assert (start ∈ closed_set st1) as Hstart.
    { simpl. destruct (fr_start Hfr) as [?|Heq]; [set_solver|].
      rewrite Heq in Hpop. vm_compute in Hpop. simplify_eq.
      destruct (fr_root Hfr) as (n0 & Hn0 & Hpos0 & _).
      subst c. rewrite (list_lookup_total_correct _ _ _ Hn0), Hpos0. set_solver. }
    assert (frontier_inv snake start goal (closed_set st) st1) as Hfr1.
    { split; simpl.
      - by left.
      - intros [?%elem_of_singleton|?]%elem_of_union; [done|by apply (fr_goal Hfr)].
      - intros x x' Hx Hx'. destruct (fr_done Hfr x x' Hx Hx') as [?|Hin]; [left; set_solver|].
        apply list_elem_of_fmap in Hin as (r & -> & Hr). rewrite Hperm in Hr.
        apply elem_of_cons in Hr as [->|Hr].
        + left. apply elem_of_union. left. by apply elem_of_singleton.
        + right. by apply list_elem_of_fmap_2.
      - intros r Hr. destruct (fr_nodes Hfr r Hr) as [Hin|?]; [|right; set_solver].
        rewrite Hperm in Hin. apply elem_of_cons in Hin as [->|Hin]; [|by left].
        right. apply elem_of_union. left. by apply elem_of_singleton.
      - apply Hfr.
      - apply Hfr. }
    destruct (visit_neighbors_frontier current c (get_neighbors snake (node_pos c))
                st1 (closed_set st) Hexp Hfr1 Hstart) as (Hfr2 & Hin2 & _); [done|].
    destruct (visit_neighbors_spec snake start goal current c
                (get_neighbors snake (node_pos c)) st1 Hexp) as [_ Hcl]; [done|].
    simpl in Hfr2, Hin2. destruct Hfr2 as [F1 F2 F3 F4 F5 F6].
    split; [done|done| |done|done|done].
    intros x x' Hx Hx'.
    assert (x ∈ closed_set st1) as Hx1 by (rewrite <-Hcl; exact Hx).
    simpl in Hx1.
    apply elem_of_union in Hx1 as [->%elem_of_singleton|Hx1]; [by apply Hin2|].
    by eapply F3.
Qed.

Lemma astar_loop_complete fuel st path pops :
  search_inv snake start st →
  frontier_inv snake start goal (closed_set st) st →
  astar_loop fuel snake goal st = Some (path, pops) →
  (reachable snake start goal → leads_to snake start goal path) ∧
  NoDup (start :: path).
Proof.
  revert st pops. induction fuel as [|fuel IH]; intros st pops Hinv Hfr Hloop; [done|].
  simpl in Hloop.
  pose proof (astar_step_spec snake start goal st Hinv) as Hstep.
  pose proof (astar_step_frontier st Hinv Hfr) as Hstep'.
  destruct (astar_step snake goal st) as [[path'|st']|]; [| |done].
  - by simplify_eq.
  - destruct Hstep as (_ & Hinv' & _).
    destruct (astar_loop fuel snake goal st') as [[path' pops']|] eqn:Hrest; [|done].
    simpl in Hloop. simplify_eq. by eapply IH.
Qed.
End search_more.

Lemma find_path_complete_simple snake start goal path :
  find_path_astar snake start goal = Some path →
  (reachable snake start goal → leads_to snake start goal path) ∧
  NoDup (start :: path).
Proof.
  unfold find_path_astar, astar_run. intros Hfind.
  apply fmap_Some in Hfind as ([path' pops] & Hloop & ->). simpl.
  eapply astar_loop_complete; [| |exact Hloop].
  - apply initial_search_inv.
  - apply initial_frontier_inv.
Qed.

(** X11: when the goal can be reached and is not the start, the result is
    not empty: the search finds a walk to it. *)
Theorem find_path_complete snake start goal :
  reachable snake start goal → goal ≠ start →
  ∃ c path, find_path_astar snake start goal = Some (c :: path) ∧
            leads_to snake start goal (c :: path).
Proof.
  intros Hreach Hne.
  destruct (find_path_astar_spec snake start goal) as (path & pops & _ & Hfind & _).
  destruct (find_path_complete_simple snake start goal path Hfind) as [Hlead _].
  specialize (Hlead Hreach). destruct path as [|c path].
  - destruct Hlead as [_ Hlast]. simpl in Hlast. by simplify_eq.
  - by exists c, path.
Qed.

Lemma find_path_complete_witness :
  ∃ c path, find_path_astar [(2, 2); (2, 3)] (2, 2) (3, 1) = Some (c :: path) ∧
            leads_to [(2, 2); (2, 3)] (2, 2) (3, 1) (c :: path).
Proof.
  apply find_path_complete; [|done].
  exists [(2, 1); (3, 1)]. apply (bool_decide_unpack _). vm_compute. exact I.
Defined.

(** X12: a returned path visits no cell twice and never comes back to the
    start. *)
Theorem find_path_simple snake start goal path :
  find_path_astar snake start goal = Some path → NoDup (start :: path).
Proof. intros Hfind. by eapply find_path_complete_simple. Qed.

Lemma find_path_simple_witness :
  NoDup ((2, 2) :: [(2, 1); (3, 1)]).
Proof.
  apply (find_path_simple [(2, 2); (2, 3)] (2, 2) (3, 1)). vm_compute. reflexivity.
Defined.

(** ** One tick *)


Lemma last_not_removelast (snake : list Cell) (c : Cell) :
  NoDup snake → last snake = Some c → c ∉ removelast snake.
Proof.
  intros Hnd [front ->]%last_Some. rewrite removelast_last.
  apply NoDup_app in Hnd as (_ & Hdisj & _). intros Hin.
  apply (Hdisj _ Hin). by apply list_elem_of_singleton.
Qed.

(** What [update_ai] leaves when a path is found. *)
Lemma update_ai_path r self head next rest :
  self_snake self !! 0%nat = Some head →
  find_path_astar (self_snake self) head (self_food self) = Some (next :: rest) →
  update_ai r self
  = Some (mkGame (self_snake self) (next.1 - head.1, next.2 - head.2) (self_food self)
                 (self_score self) (self_food_eaten self) (next :: rest) 1
                 (self_ai_running self)).
Proof.
  intros Hhead Hfind. unfold update_ai. rewrite Hhead. simpl. rewrite Hfind. simpl.
  done.
Qed.



(** X14: the search leaves the tail out of the occupied cells, the
    collision test of [update_game] does not: when the first cell of the
    path found is the tail of the snake, the tick ends the game and the
    snake stays where it is. *)
Theorem planned_tick_onto_tail r draws self head next rest :
  self_ai_running self = true →
  self_snake self !! 0%nat = Some head →
  find_path_astar (self_snake self) head (self_food self) = Some (next :: rest) →
  last (self_snake self) = Some next →
  ∃ self', update_game r draws self = Some self' ∧
           self_ai_running self' = false ∧
           self_snake self' = self_snake self ∧
           self_food self' = self_food self ∧
           self_score self' = self_score self.
Proof.
  intros Hrun Hhead Hfind Htail.
  unfold update_game. rewrite Hrun. simpl.
  rewrite (update_ai_path r self head next rest Hhead Hfind).
  simpl. rewrite Hhead. simpl.
  replace (head.1 + (next.1 - head.1), head.2 + (next.2 - head.2)) with next
    by (destruct next; simpl; f_equal; lia).
  assert (next ∈ self_snake self) as Hin.
  { apply last_Some in Htail as [front ->]. apply elem_of_app. right. left. }
  case_decide as Hhit; [|tauto].
  eexists. split; [done|]. by simpl.
Qed.

Lemma planned_tick_onto_tail_witness :
  ∃ self', update_game 0 []
             (mkGame [(20, 14); (21, 14); (21, 15); (20, 15)] LEFT (20, 17) 30 3 [] 0 true)
           = Some self' ∧
           self_ai_running self' = false ∧
           self_snake self' = [(20, 14); (21, 14); (21, 15); (20, 15)] ∧
           self_food self' = (20, 17) ∧
           self_score self' = 30.
Proof.
  apply (planned_tick_onto_tail 0 []
           (mkGame [(20, 14); (21, 14); (21, 15); (20, 15)] LEFT (20, 17) 30 3 [] 0 true)
           (20, 14) (20, 15) [(20, 16); (20, 17)]).
  - reflexivity.
  - reflexivity.
  - vm_compute. reflexivity.
  - reflexivity.
Defined.



Lemma game_snake_well_formed_witness :
  [(20, 13); (20, 14)] ≠ [] ∧ NoDup [(20, 13); (20, 14)] ∧
  Forall in_bounds [(20, 13); (20, 14)] ∧ contiguous [(20, 13); (20, 14)].
Proof.
  apply (game_snake_well_formed
           (mkGame [(20, 13); (20, 14)] UP (3, 3) 10 1 [(20, 13)] 1 true)).
  eapply (run_frames_game_state [KeySpace; Tick 0 []; Tick 0 [(20, 13); (3, 3)]]).
  - apply (game_init [(20, 13)]). reflexivity.
  - vm_compute. reflexivity.
Defined.

Lemma game_food_off_snake_witness : (3, 3) ∉ [(20, 13); (20, 14)].
Proof.
  apply (game_food_off_snake
           (mkGame [(20, 13); (20, 14)] UP (3, 3) 10 1 [(20, 13)] 1 true)).
  eapply (run_frames_game_state [KeySpace; Tick 0 []; Tick 0 [(20, 13); (3, 3)]]).
  - apply (game_init [(20, 13)]). reflexivity.
  - vm_compute. reflexivity.
Defined.

Lemma game_score_accounting_witness :
  10 = 10 * 1 ∧ Z.of_nat (length [(20, 13); (20, 14)]) = 1 + 1.
Proof.
  apply (game_score_accounting
           (mkGame [(20, 13); (20, 14)] UP (3, 3) 10 1 [(20, 13)] 1 true)).
  eapply (run_frames_game_state [KeySpace; Tick 0 []; Tick 0 [(20, 13); (3, 3)]]).
  - apply (game_init [(20, 13)]). reflexivity.
  - vm_compute. reflexivity.
Defined.

(** ** The shell *)

Lemma handle_event_game_state sh ev sh' :
  game_state (shell_game sh) → handle_event sh ev = Some sh' →
  game_state (shell_game sh').
Proof.
  intros Hstate Hev. destruct ev as [event draws]. unfold handle_event in Hev.
  destruct event as [|[| | | | |]|]; simplify_eq/=; try done.
  - by eapply (game_frame KeySpace).
  - destruct (reset_game draws false) as [game'|] eqn:Hreset; simplify_eq/=.
    by eapply game_init.
Qed.

Lemma handle_event_speed sh ev sh' :
  1 ≤ self_game_speed sh ≤ 20 → handle_event sh ev = Some sh' →
  1 ≤ self_game_speed sh' ≤ 20.
Proof.
  intros Hspeed Hev. destruct ev as [event draws]. unfold handle_event in Hev.
  destruct event as [|[| | | | |]|]; simplify_eq/=; try lia.
  destruct (reset_game draws false); simplify_eq/=. lia.
Qed.

Lemma handle_events_keeps events sh sh' :
  game_state (shell_game sh) → 1 ≤ self_game_speed sh ≤ 20 →
  handle_events events sh = Some sh' →
  game_state (shell_game sh') ∧ 1 ≤ self_game_speed sh' ≤ 20.
Proof.
  revert sh. induction events as [|ev events IH]; intros sh Hstate Hspeed Hev.
  - simpl in Hev. by simplify_eq.
  - simpl in Hev. destruct (handle_event sh ev) as [sh1|] eqn:Hone; [|done].
    simpl in Hev. eapply IH; [| |exact Hev].
    + by eapply handle_event_game_state.
    + by eapply handle_event_speed.
Qed.

Lemma run_keeps turns sh sh' :
  game_state (shell_game sh) → 1 ≤ self_game_speed sh ≤ 20 →
  run turns sh = Some sh' →
  game_state (shell_game sh') ∧ 1 ≤ self_game_speed sh' ≤ 20.
Proof.
  revert sh. induction turns as [|turn turns IH]; intros sh Hstate Hspeed Hrun.
  - simpl in Hrun. by simplify_eq.
  - simpl in Hrun. destruct (self_running sh); [|by simplify_eq].
    destruct (handle_events (turn_events turn) sh) as [sh1|] eqn:Hev; [|done].
    simpl in Hrun.
    destruct (handle_events_keeps _ _ _ Hstate Hspeed Hev) as [Hstate1 Hspeed1].
    destruct (update_game _ _ _) as [game|] eqn:Hupd; [|done]. simpl in Hrun.
    eapply IH; [| |exact Hrun]; simpl; [|done].
    by eapply (game_frame (Tick _ _)).
Qed.

Lemma Shell_init_keeps draws sh :
  Shell_init draws = Some sh →
  game_state (shell_game sh) ∧ 1 ≤ self_game_speed sh ≤ 20.
Proof.
  unfold Shell_init. intros Hinit.
  destruct (reset_game draws false) as [game|] eqn:Hreset; simplify_eq/=.
  split; [by eapply game_init|lia].
Qed.

(** X16: from [__init__] on, whatever the events, [game_speed] stays
    between 1 and 20. *)
Theorem run_game_speed_bounds draws turns sh0 sh :
  Shell_init draws = Some sh0 → run turns sh0 = Some sh →
  1 ≤ self_game_speed sh ≤ 20.
Proof.
  intros [Hstate Hspeed]%Shell_init_keeps Hrun.
  by destruct (run_keeps _ _ _ Hstate Hspeed Hrun).
Qed.

Lemma run_game_speed_bounds_witness : 1 ≤ 20 ≤ 20.
Proof.
  apply (run_game_speed_bounds [(20, 13)]
           [mkTurn (replicate 15 (KEYDOWN K_UP, [])) 0 []]
           (mkShell (mkGame [(20, 15)] RIGHT (20, 13) 0 0 [] 0 false) true 10)
           (mkShell (mkGame [(20, 15)] RIGHT (20, 13) 0 0 [] 0 false) true 20)).
  - reflexivity.
  - vm_compute. reflexivity.
Defined.

(** X17: through [__init__], [handle_events] and [update_game] as [run]
    chains them, with SPACE and R at any time, the game stays well formed:
    the snake is not empty, without repeated cells, inside the grid and in
    one piece, the food is off the snake, the score is ten times the food
    eaten, and the direction is one of the four. *)
Theorem run_game_well_formed draws turns sh0 sh :
  Shell_init draws = Some sh0 → run turns sh0 = Some sh →
  game_ok (shell_game sh) ∧ self_direction (shell_game sh) ∈ DIRECTIONS.
Proof.
  intros [Hstate Hspeed]%Shell_init_keeps Hrun.
  destruct (run_keeps _ _ _ Hstate Hspeed Hrun) as [Hstate' _].
  split; [by apply game_state_ok|by apply game_state_direction].
Qed.

Lemma run_game_well_formed_witness :
  game_ok (mkGame [(20, 13); (20, 14)] UP (3, 3) 10 1 [(20, 13)] 1 true) ∧
  UP ∈ DIRECTIONS.
Proof.
  apply (run_game_well_formed [(20, 13)]
           [mkTurn [(KEYDOWN K_SPACE, []); (KEYDOWN K_UP, [])] 0 [];
            mkTurn [(KEYDOWN K_q, [])] 0 [(20, 13); (3, 3)];
            mkTurn [] 0 []]
           (mkShell (mkGame [(20, 15)] RIGHT (20, 13) 0 0 [] 0 false) true 10)
           (mkShell (mkGame [(20, 13); (20, 14)] UP (3, 3) 10 1 [(20, 13)] 1 true)
                    false 11)).
  - reflexivity.
  - vm_compute. reflexivity.
Defined.

Lemma handle_event_stays_stopped sh ev sh' :
  self_running sh = false → handle_event sh ev = Some sh' → self_running sh' = false.
Proof.
  intros Hstop Hev. destruct ev as [event draws]. unfold handle_event in Hev.
  destruct event as [|[| | | | |]|]; simplify_eq/=; try done.
  destruct (reset_game draws false); by simplify_eq/=.
Qed.

Lemma handle_events_stays_stopped events sh sh' :
  self_running sh = false → handle_events events sh = Some sh' →
  self_running sh' = false.
Proof.
  revert sh. induction events as [|ev events IH]; intros sh Hstop Hev; simpl in Hev.
  - by simplify_eq.
  - destruct (handle_event sh ev) as [sh1|] eqn:Hone; [|done]. simpl in Hev.
    eapply IH; [|exact Hev]. by eapply handle_event_stays_stopped.
Qed.

Lemma handle_events_quit events sh sh' draws :
  ((QUIT, draws) ∈ events ∨ (KEYDOWN K_q, draws) ∈ events) →
  handle_events events sh = Some sh' → self_running sh' = false.
Proof.
  revert sh. induction events as [|ev events IH]; intros sh Hin Hev; simpl in Hev.
  - destruct Hin as [?%elem_of_nil|?%elem_of_nil]; done.
  - destruct (handle_event sh ev) as [sh1|] eqn:Hone; [|done]. simpl in Hev.
    destruct (decide (ev = (QUIT, draws) ∨ ev = (KEYDOWN K_q, draws))) as [Hev'|Hne].
    + eapply handle_events_stays_stopped; [|exact Hev].
      destruct Hev' as [->| ->]; simpl in Hone; by simplify_eq.
    + eapply IH; [|exact Hev].
      destruct Hin as [[Heq|?]%elem_of_cons|[Heq|?]%elem_of_cons];
        [destruct Hne; by left|by left|destruct Hne; by right|by right].
Qed.

(** X18: no event sets [running] back: once a QUIT event or the Q key is
    among the events of a turn, the loop does the tick of that turn and
    then stops, whatever comes later. *)
Theorem run_stops_after_quit events r draws draws' turns sh :
  self_running sh = true →
  ((QUIT, draws') ∈ events ∨ (KEYDOWN K_q, draws') ∈ events) →
  run (mkTurn events r draws :: turns) sh = run [mkTurn events r draws] sh ∧
  ∀ sh', run [mkTurn events r draws] sh = Some sh' → self_running sh' = false.
Proof.
  intros Hrun Hquit. simpl. rewrite Hrun.
  destruct (handle_events events sh) as [sh1|] eqn:Hev; [|done]. simpl.
  pose proof (handle_events_quit _ _ _ _ Hquit Hev) as Hstop.
  destruct (update_game r draws (shell_game sh1)) as [game|]; [|done]. simpl.
  split; [|by intros sh' [= <-]].
  destruct turns; [done|]. simpl. by rewrite Hstop.
Qed.

Lemma run_stops_after_quit_witness :
  run (mkTurn [(KEYDOWN K_SPACE, []); (KEYDOWN K_q, [])] 0 [] :: [mkTurn [] 0 []])
      (mkShell (mkGame [(20, 15)] RIGHT (20, 13) 0 0 [] 0 false) true 10)
  = run [mkTurn [(KEYDOWN K_SPACE, []); (KEYDOWN K_q, [])] 0 []]
      (mkShell (mkGame [(20, 15)] RIGHT (20, 13) 0 0 [] 0 false) true 10) ∧
  self_running
    (mkShell (mkGame [(20, 14)] UP (20, 13) 0 0 [(20, 14); (20, 13)] 1 true) false 10)
  = false.
Proof.
  destruct (run_stops_after_quit [(KEYDOWN K_SPACE, []); (KEYDOWN K_q, [])] 0 [] []
              [mkTurn [] 0 []]
              (mkShell (mkGame [(20, 15)] RIGHT (20, 13) 0 0 [] 0 false) true 10))
    as [Hsame Hstop].
  - reflexivity.
  - right. apply (bool_decide_unpack _). vm_compute. exact I.
  - split; [exact Hsame|]. apply Hstop. vm_compute. reflexivity.
Defined.
